(** * pyknow.rule: conditional elements and their activations

    A shallow embedding of [pyknow/rule.py]: the base [Rule] (and [AND],
    which inherits everything from it), [NOT] and [OR], their
    [get_activations] methods and [Rule.__call__].

    What [rule.py] imports but does not define is kept at the boundary:
    - [pyknow.factlist.FactList]: a store is given by its [matches] method;
    - [pyknow.fact.Fact], [InitialFact], [Context]: patterns and bindings;
    - [pyknow.activation.Activation]: a record (rule, facts, contexts);
    - [functools.update_wrapper]: what it writes on the attributes of a rule
      that this module reads;
    - what the interpreter decides (the iteration order of a [set], [hash]
      and [sorted] on objects that are not fact identifiers): the class
      [Runtime]. *)

From stdpp Require Import base decidable option list strings gmap sorting.

Open Scope Z_scope.

(** ** Values that cross the boundary *)

(** A value bound to a variable name inside a [Context]. *)
Inductive value : Type :=
| VInt (z : Z)
| VStr (s : string).

#[global] Instance value_eq_dec : EqDecision value.
Proof. solve_decision. Defined.

(** Modelled from the spec: [pyknow.fact.Context] is a mapping from variable
    name to value; two contexts are equal when they hold the same
    bindings. *)
Abbreviation Context := (gmap string value).

(** Fact identifiers are the integer indexes a [FactList] hands out. *)
Abbreviation FactId := Z (only parsing).

(** Modelled from the spec: [pyknow.fact.Fact] is a pattern over named
    attributes and [InitialFact] is the distinguished sentinel pattern; both
    are instances of [Fact]. *)
Inductive Fact : Type :=
| InitialFact
| FactP (attrs : list (string * value)).

#[global] Instance Fact_eq_dec : EqDecision Fact.
Proof. solve_decision. Defined.

(** One element of the list returned by [factlist.matches(cond)].  The store
    is expected to return [(idx, context)] pairs; [ESeq] is a tuple of
    integers of any length, which is how an element that is not such a pair
    reaches [dict(match)]. *)
Inductive entry : Type :=
| EPair (idx : FactId) (context : Context)
| ESeq (items : list Z).

#[global] Instance entry_eq_dec : EqDecision entry.
Proof. solve_decision. Defined.

(** What an activation's [facts] can hold and what a [contexts] dictionary
    is keyed by: a fact identifier, or (through [OR], which stores
    [match[0]]) a whole element of a match list. *)
Inductive factref : Type :=
| RId (idx : FactId)
| REntry (e : entry).

#[global] Instance factref_eq_dec : EqDecision factref.
Proof. solve_decision. Defined.

(** What a [contexts] dictionary maps a key to: a [Context], the second
    component of a two-integer tuple, or [None] (the result of
    [dict.get] on a missing key). *)
Inductive binding : Type :=
| BCtx (c : Context)
| BInt (z : Z)
| BNone.

#[global] Instance binding_eq_dec : EqDecision binding.
Proof. solve_decision. Defined.

(** Rule objects have no [__eq__]: they compare by identity, which the
    embedding carries as an explicit identifier. *)
Abbreviation RuleId := nat (only parsing).

(** Modelled from the spec: [pyknow.activation.Activation] is an immutable
    record [(rule, facts, contexts)], compared and hashed structurally. *)
Record Activation : Type := mkActivation {
  rule : RuleId;
  facts : list factref;
  contexts : list (factref * binding)
}.

#[global] Instance Activation_eq_dec : EqDecision Activation.
Proof. solve_decision. Defined.

(** ** Conditional elements *)

Inductive RuleClass : Type := KRule | KAND | KNOT | KOR.

#[global] Instance RuleClass_eq_dec : EqDecision RuleClass.
Proof. solve_decision. Defined.

(** A member of [conds]: an instance of [Fact], an instance of a subclass
    of [Rule] (with its own [conds] and [salience]), or any other
    object, which both branches of the loops skip. *)
#[warnings="-register-all"] Inductive CE : Type :=
| Pattern (f : Fact)
| Node (id : RuleId) (cls : RuleClass) (conds : list CE) (salience : Z)
| Other.

(** [Rule.__init__]: without conditions the rule matches [InitialFact]. *)
Definition new_rule (cls : RuleClass) (id : RuleId) (conds : list CE)
    (salience : Z) : CE :=
  Node id cls (match conds with [] => [Pattern InitialFact] | _ => conds end)
       salience.

(** ** Exceptions, state and the evaluation monad *)

Inductive exn : Type := ValueError | AttributeError | TypeError | IndexError.

#[global] Instance exn_eq_dec : EqDecision exn.
Proof. solve_decision. Defined.

Inductive outcome (A : Type) : Type :=
| Ret (a : A)
| Raise (e : exn).
Arguments Ret {A} a.
Arguments Raise {A} e.

(** Ghost record of the calls an evaluation makes, in order: the entry into
    [get_activations] of a rule, and a call of [factlist.matches(cond)] with
    the [rule] attributes of the store and of the pattern at that time. *)
Inductive event : Type :=
| EvGetActivations (r : RuleId)
| EvMatches (marker : option RuleId) (cond : Fact) (cond_rule : option RuleId).

#[global] Instance event_eq_dec : EqDecision event.
Proof. solve_decision. Defined.

(** The mutable state an evaluation touches: the [rule] attribute written
    on the fact list, and the ghost trace. *)
Record pystate : Type := mkState {
  fl_rule : option RuleId;
  trace : list event
}.

Definition M (A : Type) : Type := pystate -> outcome A * pystate.

Definition ret {A} (a : A) : M A := fun s => (Ret a, s).
Definition raise {A} (e : exn) : M A := fun s => (Raise e, s).
Definition bind {A B} (m : M A) (k : A -> M B) : M B :=
  fun s => match m s with
           | (Ret a, s') => k a s'
           | (Raise e, s') => (Raise e, s')
           end.
Definition lift {A} (o : outcome A) : M A := fun s => (o, s).

Notation "x <- m ;; k" := (bind m (fun x => k))
  (at level 100, m at next level, right associativity).
Notation "m ;;; k" := (bind m (fun _ => k))
  (at level 100, right associativity).

Definition obind {A B} (o : outcome A) (k : A -> outcome B) : outcome B :=
  match o with Ret a => k a | Raise e => Raise e end.

Definition log (ev : event) : M unit :=
  fun s => (Ret tt, mkState (fl_rule s) (trace s ++ [ev])).

(** [factlist.rule = self] *)
Definition set_fl_rule (self : RuleId) : M unit :=
  fun s => (Ret tt, mkState (Some self) (trace s)).

(** ** The store argument *)

(** [matches] of a store sees the pattern, the [rule] attribute last written
    on the pattern and the one last written on the store. *)
Definition matches_fn : Type :=
  option RuleId -> Fact -> option RuleId -> list entry.

(** The object passed as [factlist]: an instance of [FactList], or anything
    else, which may or may not have a [matches] attribute. *)
Inductive store : Type :=
| FactList (m : matches_fn)
| Foreign (m : option matches_fn).

Definition is_FactList (st : store) : bool :=
  match st with FactList _ => true | Foreign _ => false end.

Definition matches_attr (st : store) : option matches_fn :=
  match st with FactList m => Some m | Foreign m => m end.

(** [factlist.matches(cond)], with [cond.rule] as last assigned. *)
Definition call_matches (st : store) (cond : Fact) (cond_rule : option RuleId)
    : M (list entry) :=
  fun s => match matches_attr st with
           | None => (Raise AttributeError, s)
           | Some m =>
               (Ret (m (fl_rule s) cond cond_rule),
                mkState (fl_rule s)
                        (trace s ++ [EvMatches (fl_rule s) cond cond_rule]))
           end.

(** ** What the interpreter decides *)

(** [hashable] says whether [hash] succeeds on a key, [py_sorted] is
    [sorted] on a list of keys and [tuple_of_set l] is [tuple(set(l))] for
    the activations [l] (which hash, as the spec has it). *)
Class Runtime : Type := {
  hashable : factref -> bool;
  py_sorted : list factref -> outcome (list factref);
  tuple_of_set : list Activation -> list Activation
}.

(** Fact identifiers are integers: they hash, and [sorted] puts them in
    ascending order.  A set holds each element once, in an order of the
    interpreter's choosing. *)
Class RuntimeLaws (RT : Runtime) : Prop := {
  hashable_id : forall i, hashable (RId i) = true;
  py_sorted_ids : forall ids,
    py_sorted (RId <$> ids) = Ret (RId <$> merge_sort Z.le ids);
  tuple_of_set_perm : forall l, tuple_of_set l ≡ₚ remove_dups l
}.

(** ** Dictionaries

    A [dict] keeps its keys in order of first insertion; assigning to a key
    that is present replaces the value in place. *)

Fixpoint dict_set {K V} `{EqDecision K} (k : K) (v : V) (d : list (K * V))
    : list (K * V) :=
  match d with
  | [] => [(k, v)]
  | (k', v') :: d' =>
      if decide (k = k') then (k', v) :: d' else (k', v') :: dict_set k v d'
  end.

Fixpoint dict_get {K V} `{EqDecision K} (k : K) (d : list (K * V)) : option V :=
  match d with
  | [] => None
  | (k', v') :: d' => if decide (k = k') then Some v' else dict_get k d'
  end.

(** An element of the sequence given to [dict(...)]: a [(fact, context)]
    tuple built by this module, or an element of a match list. *)
Inductive item : Type :=
| ISlot (fact : factref) (context : binding)
| IEntry (e : entry).

(** The key and value [dict] takes from an element: [None] when the
    element does not have length 2. *)
Definition item_kv (it : item) : option (factref * binding) :=
  match it with
  | ISlot k v => Some (k, v)
  | IEntry (EPair i c) => Some (RId i, BCtx c)
  | IEntry (ESeq [i; j]) => Some (RId i, BInt j)
  | IEntry (ESeq _) => None
  end.

Definition suppress {A} (e : exn) (default : A) (o : outcome A) : outcome A :=
  match o with
  | Ret a => Ret a
  | Raise e' => if decide (e' = e) then Ret default else Raise e'
  end.

(** [itertools.product] of the lists [ls]: the rightmost position advances
    fastest. *)
Fixpoint product {A} (ls : list (list A)) : list (list A) :=
  match ls with
  | [] => [[]]
  | l :: ls' => x ← l; (fun t => x :: t) <$> product ls'
  end.

Section Evaluation.
Context `{RT : Runtime}.

(** [d.update(items)], as [dict(items)] performs it element by element:
    an element whose length is not 2 raises [ValueError], an unhashable
    key [TypeError]. *)
Fixpoint dict_update (d : list (factref * binding)) (items : list item)
    : outcome (list (factref * binding)) :=
  match items with
  | [] => Ret d
  | it :: rest =>
      match item_kv it with
      | None => Raise ValueError
      | Some (k, v) =>
          if hashable k then dict_update (dict_set k v d) rest
          else Raise TypeError
      end
  end.

Definition py_dict (items : list item) : outcome (list (factref * binding)) :=
  dict_update [] items.

(** [dict(act.contexts)] *)
Definition contexts_dict (act : Activation)
    : outcome (list (factref * binding)) :=
  py_dict ((fun kv => ISlot kv.1 kv.2) <$> contexts act).

(** [d.get(fact)] *)
Definition py_get (fact : factref) (d : list (factref * binding))
    : outcome binding :=
  if hashable fact then Ret (default BNone (dict_get fact d))
  else Raise TypeError.

(** *** [Rule.get_activations] *)

(** Lines 103-105: one singleton list per fact of [act]. *)
Fixpoint fact_slots (act : Activation) (fs : list factref)
    : outcome (list (list item)) :=
  match fs with
  | [] => Ret []
  | fact :: fs' =>
      obind (contexts_dict act) (fun d =>
      obind (py_get fact d) (fun context =>
      obind (fact_slots act fs') (fun rest =>
      Ret ([ISlot fact context] :: rest))))
  end.

(** Lines 101-105: what the activations of a composite child append to
    [matches]. *)
Fixpoint acts_slots (acts : list Activation) : outcome (list (list item)) :=
  match acts with
  | [] => Ret []
  | act :: acts' =>
      obind (fact_slots act (facts act)) (fun here =>
      obind (acts_slots acts') (fun rest => Ret (here ++ rest)))
  end.

(** Lines 94-112: the loop over [conds].  [None] is [break]; [Some matches]
    means the loop ran to its end, so that the [else] clause runs.  The
    assignment [cond.context = self.context] has no effect on what this
    module computes and is left out. *)
Definition Rule_loop (ev : CE -> M (list Activation)) (st : store)
    (self : RuleId)
    : list CE -> list (list item) -> M (option (list (list item))) :=
  fix loop (conds : list CE) (matches : list (list item)) :=
    match conds with
    | [] => ret (Some matches)
    | cond :: rest =>
        set_fl_rule self ;;;
        match cond with
        | Node _ _ _ _ =>
            acts <- ev cond ;;
            match acts with
            | [] => ret None
            | _ =>
                slots <- lift (acts_slots acts) ;;
                loop rest (matches ++ slots)
            end
        | Pattern f =>
            match_ <- call_matches st f (Some self) ;;
            match match_ with
            | [] => ret None
            | _ => loop rest (matches ++ [IEntry <$> match_])
            end
        | Other => loop rest matches
        end
    end.

(** Lines 115-123: the body of the loop over the product. *)
Definition tuple_activation (self : RuleId) (match_ : list item)
    : outcome (option Activation) :=
  obind (suppress ValueError [] (py_dict match_)) (fun contexts =>
  obind (py_sorted contexts.*1) (fun facts =>
  Ret (match facts with
       | [] => None
       | _ => Some (mkActivation self facts contexts)
       end))).

(** Lines 114-123: what the generator yields over all the tuples. *)
Fixpoint tuples_activations (self : RuleId) (tuples : list (list item))
    : outcome (list Activation) :=
  match tuples with
  | [] => Ret []
  | t :: ts =>
      obind (tuple_activation self t) (fun oa =>
      obind (tuples_activations self ts) (fun rest =>
      Ret (match oa with Some a => a :: rest | None => rest end)))
  end.

(** Lines 91-123: the generator [_activations], run to its end.  After
    [break] the [else] clause is skipped and nothing is yielded. *)
Definition _activations (ev : CE -> M (list Activation)) (st : store)
    (self : RuleId) (conds : list CE) : M (list Activation) :=
  r <- Rule_loop ev st self conds [] ;;
  match r with
  | None => ret []
  | Some matches => lift (tuples_activations self (product matches))
  end.

(** Lines 86-125.  The ghost event stands for the entry into the method. *)
Definition Rule_get_activations (ev : CE -> M (list Activation))
    (st : store) (self : RuleId) (conds : list CE) : M (list Activation) :=
  log (EvGetActivations self) ;;;
  if is_FactList st then
    yielded <- _activations ev st self conds ;;
    ret (tuple_of_set yielded)
  else raise ValueError.

(** *** [NOT.get_activations] *)

(** [factidx, context = e] *)
Definition unpack_entry (e : entry) : outcome (factref * binding) :=
  match item_kv (IEntry e) with
  | Some kv => Ret kv
  | None => Raise ValueError
  end.

(** [super().get_activations] is [Rule.get_activations] on the same
    object.  An empty [matches(InitialFact())] makes the subscript raise
    [IndexError], which is suppressed, and control falls to the final
    [return tuple()]. *)
Definition NOT_get_activations (ev : CE -> M (list Activation))
    (st : store) (self : RuleId) (conds : list CE) : M (list Activation) :=
  activations <- Rule_get_activations ev st self conds ;;
  match activations with
  | [] =>
      found <- call_matches st InitialFact None ;;
      match found with
      | [] => ret []
      | e :: _ =>
          kv <- lift (unpack_entry e) ;;
          ret [mkActivation self [kv.1] [(kv.1, kv.2)]]
      end
  | _ => ret []
  end.

(** *** [OR.get_activations] *)

(** An element of [matches] in [OR]: the tuple of lines 213-214, or a
    whole (non-empty) match list, line 219. *)
Inductive or_item : Type :=
| OSlot (fact : factref) (context : list (factref * binding))
| OMatch (match_ : list entry).

(** Lines 211-214. *)
Fixpoint or_fact_slots (act : Activation) (fs : list factref)
    : outcome (list or_item) :=
  match fs with
  | [] => Ret []
  | fact :: fs' =>
      obind (contexts_dict act) (fun context =>
      obind (or_fact_slots act fs') (fun rest =>
      Ret (OSlot fact context :: rest)))
  end.

(** Lines 210-214. *)
Fixpoint or_acts_slots (acts : list Activation) : outcome (list or_item) :=
  match acts with
  | [] => Ret []
  | act :: acts' =>
      obind (or_fact_slots act (facts act)) (fun here =>
      obind (or_acts_slots acts') (fun rest => Ret (here ++ rest)))
  end.

(** Lines 205-219: the inner loop; [break] leaves it with what has been
    accumulated. *)
Definition OR_inner (ev : CE -> M (list Activation)) (st : store)
    (self : RuleId) : list CE -> list or_item -> M (list or_item) :=
  fix loop (conds : list CE) (matches : list or_item) :=
    match conds with
    | [] => ret matches
    | cond :: rest =>
        match cond with
        | Node _ _ _ _ =>
            acts <- ev cond ;;
            match acts with
            | [] => ret matches
            | _ =>
                slots <- lift (or_acts_slots acts) ;;
                loop rest (matches ++ slots)
            end
        | Pattern f =>
            match_ <- call_matches st f (Some self) ;;
            match match_ with
            | [] => loop rest matches
            | _ => loop rest (matches ++ [OMatch match_])
            end
        | Other => loop rest matches
        end
    end.

(** Lines 204-205: the outer loop runs the inner loop once per member of
    [conds]; its own loop variable is overwritten by the inner one. *)
Definition OR_outer (inner : list or_item -> M (list or_item))
    : list CE -> list or_item -> M (list or_item) :=
  fix loop (conds : list CE) (matches : list or_item) :=
    match conds with
    | [] => ret matches
    | _ :: rest => matches' <- inner matches ;; loop rest matches'
    end.

(** [fact[0]] for an element of [matches]. *)
Definition or_item_first (it : or_item) : outcome factref :=
  match it with
  | OSlot fact _ => Ret fact
  | OMatch (e :: _) => Ret (REntry e)
  | OMatch [] => Raise IndexError
  end.

(** [[fact[0] for fact in matches]] *)
Fixpoint or_facts (matches : list or_item) : outcome (list factref) :=
  match matches with
  | [] => Ret []
  | it :: rest =>
      obind (or_item_first it) (fun f =>
      obind (or_facts rest) (fun fs => Ret (f :: fs)))
  end.

Definition OR_get_activations (ev : CE -> M (list Activation))
    (st : store) (self : RuleId) (conds : list CE) : M (list Activation) :=
  log (EvGetActivations self) ;;;
  matches <- OR_outer (OR_inner ev st self conds) conds [] ;;
  match matches with
  | [] => ret []
  | _ =>
      fs <- lift (or_facts matches) ;;
      ret [mkActivation self fs []]
  end.

(** *** Dispatch of [cond.get_activations(factlist)]

    [AND] defines nothing of its own.  The loops call the method only on
    instances of [Rule] subclasses; on anything else the attribute is
    missing. *)
Fixpoint get_activations (st : store) (ce : CE) {struct ce}
    : M (list Activation) :=
  match ce with
  | Node id cls conds _ =>
      match cls with
      | KRule | KAND => Rule_get_activations (get_activations st) st id conds
      | KNOT => NOT_get_activations (get_activations st) st id conds
      | KOR => OR_get_activations (get_activations st) st id conds
      end
  | Pattern _ | Other => raise AttributeError
  end.

(** *** [Rule.__call__] *)

(** Lines 64-65: [kwargs.update(contexts.get(fact, {}))] for each fact;
    [update] needs a mapping. *)
Fixpoint merge_contexts (contexts : list (factref * binding))
    (fs : list factref) (kwargs : Context) : outcome Context :=
  match fs with
  | [] => Ret kwargs
  | fact :: fs' =>
      if hashable fact then
        match default (BCtx ∅) (dict_get fact contexts) with
        | BCtx c => merge_contexts contexts fs' (c ∪ kwargs)
        | _ => Raise TypeError
        end
      else Raise TypeError
  end.

(** Lines 58-65, with the [activation] keyword argument taken out of
    [kwargs]. *)
Definition receive_activation (activation : option Activation)
    (kwargs : Context) : outcome Context :=
  match activation with
  | None => Ret kwargs
  | Some act =>
      obind (contexts_dict act) (fun contexts =>
      merge_contexts contexts (facts act) kwargs)
  end.

End Evaluation.

(** A Python object given as a positional argument: an object whose
    [__dict__] holds none of the attributes of a rule (a function, a method,
    an engine), an object that has no [__dict__], or another rule object,
    whose [__dict__] holds what [__init__] and earlier calls left in [__fn],
    [__conds] and [salience]. *)
#[warnings="-register-all"] Inductive pyobj : Type :=
| OFn (name : string)
| OVal (v : value)
| ORule (fn : option pyobj) (conds : list CE) (salience : Z).

(** [isinstance(o, Rule)] *)
Definition is_Rule (o : pyobj) : bool :=
  match o with ORule _ _ _ => true | _ => false end.

(** The instance attributes of a rule object that this module reads back:
    [__fn] is [None] until a function is recorded.  ([ke] and [context] are
    written but never read here.) *)
Record rule_attrs : Type := mkRule {
  __fn : option pyobj;
  __conds : list CE;
  salience : Z
}.

(** [functools.update_wrapper(wrapper, wrapped)] on a rule object
    [wrapper]: every entry of [wrapped.__dict__] is written over
    [wrapper.__dict__].  A rule object given as [wrapped] so hands over its
    [__fn], [__conds] and [salience]; for the other objects nothing that this
    module reads is changed (the names [__module__], [__name__],
    [__qualname__], [__doc__] and [__wrapped__], which are assigned too, are
    not read by it). *)
Definition update_wrapper (wrapper : rule_attrs) (wrapped : pyobj)
    : rule_attrs :=
  match wrapped with
  | ORule fn conds sal => mkRule fn conds sal
  | OFn _ | OVal _ => wrapper
  end.

(** What a call of a rule object does when it does not raise: it returns
    the rule itself (after recording the function), or it calls the recorded
    function. *)
Inductive call_result : Type :=
| ReturnsSelf
| Calls (fn : pyobj) (args : list pyobj) (kwargs : Context).

(** [Rule.__call__(fst, *args, **kwargs)] on the rule object [self]: the
    result and the attributes of [self] after the call.  Line 69 assigns
    [__fn] and line 70 then updates the object from the function just
    assigned. *)
Definition Rule_call `{RT : Runtime} (self : rule_attrs) (fst : option pyobj)
    (args : list pyobj) (activation : option Activation) (kwargs : Context)
    : outcome call_result * rule_attrs :=
  match receive_activation activation kwargs with
  | Raise e => (Raise e, self)
  | Ret kwargs' =>
      match __fn self with
      | None =>
          match fst with
          | Some f =>
              (Ret ReturnsSelf,
               update_wrapper (mkRule (Some f) (__conds self) (salience self)) f)
          | None => (Raise AttributeError, self)
          end
      | Some f =>
          (Ret (Calls f (match fst with None => [] | Some x => [x] end ++ args)
                      kwargs'),
           self)
      end
  end.

(** ** Predicates used in the statements *)

(** A child that, met by the loop of [self] in state [s1], matches nothing
    and leaves the state [s2]. *)
Definition yields_nothing `{RT : Runtime} (st : store) (self : RuleId)
    (c : CE) (s1 s2 : pystate) : Prop :=
  let entered := mkState (Some self) (trace s1) in
  match c with
  | Pattern f => call_matches st f (Some self) entered = (Ret [], s2)
  | Node _ _ _ _ => get_activations st c entered = (Ret [], s2)
  | Other => False
  end.

(** An activation whose bindings [__call__] can pass on: every key hashes
    and every value is a [Context]. *)
Definition well_bound `{RT : Runtime} (act : Activation) : Prop :=
  Forall (fun fact => hashable fact = true) (facts act) ∧
  Forall (fun kv => hashable kv.1 = true ∧ ∃ c, kv.2 = BCtx c) (contexts act).

(** ** A reference runtime

    One interpreter the class admits: a tuple of integers hashes and an
    [(idx, Context)] pair does not (a [Context] that is a plain mapping),
    integers sort in ascending order and integer tuples lexicographically,
    a list of one element sorts without any comparison, anything else is a
    [TypeError]; a set is iterated in the order [remove_dups] leaves. *)

Fixpoint tuple_leb (a b : list Z) : bool :=
  match a, b with
  | [], _ => true
  | _ :: _, [] => false
  | x :: a', y :: b' =>
      if decide (x = y) then tuple_leb a' b' else bool_decide (x < y)
  end.

Definition tuple_le (a b : list Z) : Prop := tuple_leb a b = true.

#[global] Instance tuple_le_dec (a b : list Z) : Decision (tuple_le a b).
Proof. unfold tuple_le. apply _. Defined.

Definition as_ids (l : list factref) : option (list Z) :=
  mapM (fun k => match k with RId i => Some i | _ => None end) l.

Definition as_tuples (l : list factref) : option (list (list Z)) :=
  mapM (fun k => match k with REntry (ESeq t) => Some t | _ => None end) l.

Definition ref_hashable (k : factref) : bool :=
  match k with
  | REntry (EPair _ _) => false
  | _ => true
  end.

Definition ref_sorted (l : list factref) : outcome (list factref) :=
  match as_ids l with
  | Some ids => Ret (RId <$> merge_sort Z.le ids)
  | None =>
      match as_tuples l with
      | Some ts =>
          Ret ((fun t => REntry (ESeq t)) <$> merge_sort tuple_le ts)
      | None => match l with [_] => Ret l | _ => Raise TypeError end
      end
  end.

Definition reference_runtime : Runtime := {|
  hashable := ref_hashable;
  py_sorted := ref_sorted;
  tuple_of_set := remove_dups
|}.

(** ** An example working memory

    [InitialFact] is fact 0; two facts match [red], two match [blue], none
    matches [green]; for [odd] the store answers with a triple instead of a
    pair, and for [twin] it lists fact 5 twice. *)

Definition s0 : pystate := mkState None [].

Definition red : Fact := FactP [("color"%string, VStr "red")].
Definition blue : Fact := FactP [("color"%string, VStr "blue")].
Definition green : Fact := FactP [("color"%string, VStr "green")].
Definition odd : Fact := FactP [("shape"%string, VStr "odd")].
Definition twin : Fact := FactP [("shape"%string, VStr "twin")].

Definition bound (name : string) (v : Z) : Context := {[ name := VInt v ]}.

Definition example_matches : matches_fn := fun _ cond _ =>
  if decide (cond = InitialFact) then [EPair 0 ∅]
  else if decide (cond = red) then [EPair 1 (bound "x" 1); EPair 2 (bound "x" 2)]
  else if decide (cond = blue) then [EPair 3 (bound "y" 3); EPair 4 (bound "y" 4)]
  else if decide (cond = odd) then [ESeq [7; 8; 9]]
  else if decide (cond = twin) then [EPair 5 ∅; EPair 5 ∅]
  else [].

Definition example_store : store := FactList example_matches.

(** The activation [AND(P1, P2)] builds from the selection [(x, cx)] of
    [P1] and [(y, cy)] of [P2], written out: when both select the same
    fact the later context replaces the earlier one. *)
Definition pair_activation (self : RuleId) (x : FactId) (cx : Context)
    (y : FactId) (cy : Context) : Activation :=
  if decide (x = y) then mkActivation self [RId x] [(RId x, BCtx cy)]
  else mkActivation self [RId (Z.min x y); RId (Z.max x y)]
                    [(RId x, BCtx cx); (RId y, BCtx cy)].

(** ** Further definitions used in statements *)

(** The activation a rule builds from the single selection
    [(idx, context)]. *)
Definition single_activation (self : RuleId) (idx : FactId)
    (context : Context) : Activation :=
  mkActivation self [RId idx] [(RId idx, BCtx context)].

(** The number of tuples in the product of the match lists the rule [self]
    obtains for the patterns [ps]. *)
Definition combinations (m : matches_fn) (self : RuleId) (ps : list Fact)
    : nat :=
  foldr (fun p n => (length (m (Some self) p (Some self)) * n)%nat) 1%nat ps.

(** Keys that are fact identifiers, each once. *)
Definition id_keys (d : list (factref * binding)) (ids : list Z) : Prop :=
  d.*1 = RId <$> ids ∧ NoDup ids.

(** An activation of the rule [self] whose contexts are keyed by fact
    identifiers, each once, and whose facts are these identifiers in
    ascending order. *)
Definition sorted_ids_activation (self : RuleId) (a : Activation) : Prop :=
  rule a = self ∧
  ∃ ids, id_keys (contexts a) ids ∧ ids ≠ [] ∧
         facts a = RId <$> merge_sort Z.le ids.

(** What [OR] keeps of the patterns [ps] in one pass of its loop, when the
    store's [rule] attribute is [marker]: [fact[0]] of every non-empty match
    list, that is the first element of the list. *)
Definition first_entries (m : matches_fn) (marker : option RuleId)
    (self : RuleId) (ps : list Fact) : list factref :=
  omap (fun p => REntry <$> head (m marker p (Some self))) ps.

(** The arguments of one call of a rule object. *)
Record call_args : Type := mkCall {
  c_fst : option pyobj;
  c_args : list pyobj;
  c_activation : option Activation;
  c_kwargs : Context
}.

(** A sequence of calls of the same rule object, its attributes being
    carried from one call to the next: the results and the attributes after
    the last call. *)
Fixpoint Rule_calls `{RT : Runtime} (self : rule_attrs)
    (calls : list call_args) : list (outcome call_result) * rule_attrs :=
  match calls with
  | [] => ([], self)
  | c :: cs =>
      let r := Rule_call self (c_fst c) (c_args c) (c_activation c) (c_kwargs c) in
      let rs := Rule_calls r.2 cs in
      (r.1 :: rs.1, rs.2)
  end.

(** What a call of a rule that holds the function [f] gives: the exception
    of the merge of the bindings, or the call of [f] with the first argument,
    when there is one, put back in front of the others. *)
Definition passes_on `{RT : Runtime} (f : pyobj) (c : call_args)
    : outcome call_result :=
  match receive_activation (c_activation c) (c_kwargs c) with
  | Raise e => Raise e
  | Ret kwargs' =>
      Ret (Calls f (match c_fst c with None => [] | Some x => [x] end
                    ++ c_args c) kwargs')
  end.

(** * Properties *)

Ltac run := unfold bind, ret, raise, lift, log, set_fl_rule, call_matches in *.

Lemma merge_sort_two (x y : Z) :
  merge_sort Z.le [x; y] = [Z.min x y; Z.max x y].
Proof.
  unfold merge_sort. simpl. case_decide.
  - rewrite Z.min_l, Z.max_r by lia. done.
  - rewrite Z.min_r, Z.max_l by lia. done.
Qed.

(** Each tuple of the product takes one element from each list, in order. *)
Lemma elem_of_product {A} (ls : list (list A)) (t : list A) :
  t ∈ product ls ↔ Forall2 (fun x l => x ∈ l) t ls.
Proof.
  revert t. induction ls as [|l ls IH]; intros t; simpl.
  - rewrite list_elem_of_singleton. split; [intros ->; constructor|].
    by intros ->%Forall2_nil_inv_r.
  - rewrite list_elem_of_bind. split.
    + intros (x & Ht & Hx). apply list_elem_of_fmap in Ht as (t' & -> & Ht').
      constructor; [done|]. by apply IH.
    + intros H. apply Forall2_cons_inv_r in H as (x & t' & Hx & Ht' & ->).
      exists x. split; [|done]. apply list_elem_of_fmap. exists t'.
      split; [done|]. by apply IH.
Qed.

(** Lists of one candidate each leave no choice. *)
Lemma Forall2_singletons {A} (t : list A) (ds : list (list A)) :
  Forall (fun d => length d = 1%nat) ds →
  Forall2 (fun x l => x ∈ l) t ds → t = mjoin ds.
Proof.
  intros Hds H. induction H as [|x d t ds Hx _ IH]; [done|].
  apply Forall_cons in Hds as [Hd Hds]. rewrite (IH Hds).
  destruct d as [|y [|??]]; simplify_eq/=.
  by apply list_elem_of_singleton in Hx as ->.
Qed.

(** A rule never has an empty [conds]. *)
Lemma new_rule_conds cls id conds salience :
  ∃ c cs, new_rule cls id conds salience = Node id cls (c :: cs) salience.
Proof. destruct conds; unfold new_rule; eauto. Qed.

Section Properties.
Context `{RT : Runtime} `{!RuntimeLaws RT}.

Lemma tuple_of_set_nil : tuple_of_set [] = [].
Proof. apply Permutation_nil_r. by rewrite tuple_of_set_perm. Qed.

Lemma NoDup_tuple_of_set (l : list Activation) : NoDup (tuple_of_set l).
Proof. rewrite tuple_of_set_perm. apply NoDup_remove_dups. Qed.

Lemma elem_of_tuple_of_set (a : Activation) (l : list Activation) :
  a ∈ tuple_of_set l ↔ a ∈ l.
Proof. rewrite tuple_of_set_perm. apply elem_of_remove_dups. Qed.

Lemma tuple_of_set_NoDup (l : list Activation) :
  NoDup l → tuple_of_set l ≡ₚ l.
Proof.
  intros Hl. apply NoDup_Permutation; [apply NoDup_tuple_of_set|done|].
  intros a. apply elem_of_tuple_of_set.
Qed.

(** *** The conjunction of two patterns *)

Lemma py_sorted_one (x : Z) : py_sorted [RId x] = Ret [RId x].
Proof. apply (py_sorted_ids [x]). Qed.

Lemma py_sorted_two (x y : Z) :
  py_sorted [RId x; RId y] = Ret [RId (Z.min x y); RId (Z.max x y)].
Proof.
  change [RId x; RId y] with (RId <$> [x; y]).
  by rewrite py_sorted_ids, merge_sort_two.
Qed.

Lemma tuple_activation_pair self x cx y cy :
  tuple_activation self [IEntry (EPair x cx); IEntry (EPair y cy)] =
  Ret (Some (pair_activation self x cx y cy)).
Proof.
  unfold tuple_activation, py_dict, pair_activation. simpl.
  rewrite !hashable_id. simpl.
  destruct (decide (x = y)) as [->|Hxy].
  - rewrite decide_True by done. simpl. by rewrite py_sorted_one.
  - rewrite decide_False by congruence. simpl. by rewrite py_sorted_two.
Qed.

Lemma pair_activations_NoDup self a ca b cb c cc d cd :
  a ≠ b → c ≠ d →
  NoDup [pair_activation self a ca c cc; pair_activation self a ca d cd;
         pair_activation self b cb c cc; pair_activation self b cb d cd].
Proof.
  intros Hab Hcd. unfold pair_activation.
  repeat case_decide; subst;
    repeat (apply NoDup_cons; split;
            [rewrite ?elem_of_cons, elem_of_nil; intros ?; destruct_or?;
             congruence|]);
    apply NoDup_nil_2.
Qed.

(** C1. In a working memory where pattern [P1], matched on behalf of the
    rule, gives exactly the facts [a] and [b] and [P2] gives exactly [c] and
    [d], the conjunction of [P1] and [P2] (a base rule or an [AND]) returns
    exactly four activations, all different, one for each of the selections
    (a,c), (a,d), (b,c) and (b,d); each holds the sorted identifiers of its
    selection and the contexts merged from its two pairs. *)
Theorem C1_and_cartesian_product (m : matches_fn) self cls sal P1 P2
    a ca b cb c cc d cd s :
  cls = KRule ∨ cls = KAND →
  a ≠ b → c ≠ d →
  m (Some self) P1 (Some self) = [EPair a ca; EPair b cb] →
  m (Some self) P2 (Some self) = [EPair c cc; EPair d cd] →
  ∃ acts s',
    get_activations (FactList m) (Node self cls [Pattern P1; Pattern P2] sal) s
      = (Ret acts, s') ∧
    acts ≡ₚ [pair_activation self a ca c cc; pair_activation self a ca d cd;
             pair_activation self b cb c cc; pair_activation self b cb d cd] ∧
    NoDup acts.
Proof.
  intros Hcls Hab Hcd H1 H2.
  assert (∃ s', get_activations (FactList m)
            (Node self cls [Pattern P1; Pattern P2] sal) s =
          (Ret (tuple_of_set
             [pair_activation self a ca c cc; pair_activation self a ca d cd;
              pair_activation self b cb c cc; pair_activation self b cb d cd]),
           s')) as [s' Hs'].
  { destruct Hcls as [-> | ->]; cbn [get_activations];
      unfold Rule_get_activations, _activations; simpl; run; simpl;
      rewrite H1; simpl; rewrite H2; simpl;
      rewrite !tuple_activation_pair; simpl; eauto. }
  eexists _, _. split; [exact Hs'|]. split.
  - apply tuple_of_set_NoDup. by apply pair_activations_NoDup.
  - apply NoDup_tuple_of_set.
Qed.

(** *** Deduplication *)

Lemma Rule_get_activations_elements ev st self conds s acts s' :
  Rule_get_activations ev st self conds s = (Ret acts, s') →
  NoDup acts ∧
  ∃ yielded,
    _activations ev st self conds
      (mkState (fl_rule s) (trace s ++ [EvGetActivations self]))
      = (Ret yielded, s') ∧
    ∀ a, a ∈ acts ↔ a ∈ yielded.
Proof.
  unfold Rule_get_activations, bind at 1 2, log, ret. simpl. intros H.
  destruct (is_FactList st); [|done].
  destruct (_activations _ _ _ _ _) as [[yielded|e] s1]; [|done].
  injection H as <- <-. split; [apply NoDup_tuple_of_set|].
  exists yielded. split; [done|]. intros a. apply elem_of_tuple_of_set.
Qed.

(** C9. Whatever conditional element is evaluated, the activations it
    returns are pairwise different.  For a base rule or an [AND] they are
    those the generator yields: an activation yielded more than once, by
    different tuples of the product, is returned once. *)
Theorem C9_activations_deduplicated st ce s acts s' :
  get_activations st ce s = (Ret acts, s') →
  NoDup acts ∧
  ∀ id cls conds sal,
    ce = Node id cls conds sal → cls = KRule ∨ cls = KAND →
    ∃ yielded,
      _activations (get_activations st) st id conds
        (mkState (fl_rule s) (trace s ++ [EvGetActivations id]))
        = (Ret yielded, s') ∧
      ∀ a, a ∈ acts ↔ a ∈ yielded.
Proof.
  intros H. split.
  - destruct ce as [f|id cls conds sal|]; [done| |done].
    destruct cls; cbn [get_activations] in H.
    + by apply Rule_get_activations_elements in H as [? _].
    + by apply Rule_get_activations_elements in H as [? _].
    + unfold NOT_get_activations in H. run.
      repeat case_match; simplify_eq;
        try apply NoDup_nil_2; apply NoDup_singleton.
    + unfold OR_get_activations in H. run.
      repeat case_match; simplify_eq;
        try apply NoDup_nil_2; apply NoDup_singleton.
  - intros id cls conds sal -> [-> | ->]; cbn [get_activations] in H;
      by apply Rule_get_activations_elements in H as [_ ?].
Qed.

(** *** Negation *)

(** C4. Let the conjunction of the children of a [NOT], evaluated as [AND]
    evaluates it on a fact list, return [acts].  If [acts] is not empty the
    [NOT] returns no activation.  If it is empty and the store's first match
    for [InitialFact] is [(idx, context)], the [NOT] returns the single
    activation with facts [(idx,)] and contexts [((idx, context),)]; if the
    store has no match for [InitialFact], it returns no activation and does
    not raise. *)
Theorem C4_not_negation (m : matches_fn) self conds sal s acts s1 :
  get_activations (FactList m) (Node self KAND conds sal) s = (Ret acts, s1) →
  let s2 := mkState (fl_rule s1)
              (trace s1 ++ [EvMatches (fl_rule s1) InitialFact None]) in
  (acts ≠ [] →
   get_activations (FactList m) (Node self KNOT conds sal) s = (Ret [], s1)) ∧
  (acts = [] → ∀ idx context rest,
   m (fl_rule s1) InitialFact None = EPair idx context :: rest →
   get_activations (FactList m) (Node self KNOT conds sal) s =
     (Ret [mkActivation self [RId idx] [(RId idx, BCtx context)]], s2)) ∧
  (acts = [] →
   m (fl_rule s1) InitialFact None = [] →
   get_activations (FactList m) (Node self KNOT conds sal) s = (Ret [], s2)).
Proof.
  intros H s2. cbn [get_activations] in *.
  unfold NOT_get_activations, bind. rewrite !H. split; [|split].
  - intros Hne. by destruct acts.
  - intros -> idx context rest Hm. run. simpl. by rewrite Hm.
  - intros -> Hm. run. simpl. by rewrite Hm.
Qed.

(** *** Short circuit of the conjunction *)

Lemma Rule_loop_app ev st self pre rest ms s :
  Rule_loop ev st self (pre ++ rest) ms s =
  match Rule_loop ev st self pre ms s with
  | (Ret (Some ms'), s1) => Rule_loop ev st self rest ms' s1
  | r => r
  end.
Proof.
  revert ms s. induction pre as [|c pre IH]; intros ms s; [done|].
  destruct c as [f|id cls cs sal|]; simpl; run; simpl.
  - destruct (matches_attr st) as [m|]; [|done].
    destruct (m _ _ _); [done|apply IH].
  - destruct (ev _ _) as [[[|a acts]|e] s1]; [done| |done].
    destruct (acts_slots _); [apply IH|done].
  - apply IH.
Qed.

Lemma Rule_loop_break ev st self c post ms s1 s2 :
  match c with
  | Pattern f =>
      call_matches st f (Some self) (mkState (Some self) (trace s1)) = (Ret [], s2)
  | Node _ _ _ _ => ev c (mkState (Some self) (trace s1)) = (Ret [], s2)
  | Other => False
  end →
  Rule_loop ev st self (c :: post) ms s1 = (Ret None, s2).
Proof.
  destruct c as [f|id cls cs sal|]; [| |done]; intros Hc; simpl;
    unfold bind, set_fl_rule; simpl; by rewrite Hc.
Qed.

(** C5. In a conjunction (a base rule or an [AND]) on a fact list, let the
    children before [c] all have matched, and let [c] match nothing: a
    pattern without matching fact, or a composite child returning no
    activation.  Then the conjunction returns no activation, whatever the
    children after [c] are, and the state it leaves is the one [c] left:
    no later child is evaluated. *)
Theorem C5_conjunction_short_circuit (m : matches_fn) self cls sal
    pre c post s ms s1 s2 :
  cls = KRule ∨ cls = KAND →
  Rule_loop (get_activations (FactList m)) (FactList m) self pre []
    (mkState (fl_rule s) (trace s ++ [EvGetActivations self]))
    = (Ret (Some ms), s1) →
  yields_nothing (FactList m) self c s1 s2 →
  get_activations (FactList m) (Node self cls (pre ++ c :: post) sal) s
    = (Ret [], s2).
Proof.
  intros Hcls Hpre Hc.
  assert (Rule_get_activations (get_activations (FactList m)) (FactList m)
            self (pre ++ c :: post) s = (Ret [], s2)) as H.
  { unfold Rule_get_activations, _activations, bind at 1 2 3, log. simpl.
    rewrite Rule_loop_app, Hpre.
    rewrite (Rule_loop_break _ _ _ _ _ _ _ s2) by exact Hc.
    unfold ret. by rewrite tuple_of_set_nil. }
  by destruct Hcls as [-> | ->].
Qed.

(** *** The store argument *)

Lemma Rule_rejects_foreign_store ev m self conds s :
  Rule_get_activations ev (Foreign m) self conds s =
  (Raise ValueError, mkState (fl_rule s) (trace s ++ [EvGetActivations self])).
Proof. reflexivity. Qed.

Lemma get_activations_foreign_store m id cls conds sal s :
  cls ≠ KOR →
  get_activations (Foreign m) (Node id cls conds sal) s =
  (Raise ValueError, mkState (fl_rule s) (trace s ++ [EvGetActivations id])).
Proof. by destruct cls. Qed.

(** C7, at the failing input.  [OR.get_activations] does not test its
    argument: given an object without [matches] it fails with
    [AttributeError] where [ValueError] is expected, and given an object
    that is not a [FactList] but has a [matches] method it matches and
    returns an activation. *)
Theorem C7_or_skips_store_check :
  get_activations (Foreign None) (Node 7 KOR [Pattern red] 0) s0 =
    (Raise AttributeError, mkState None [EvGetActivations 7]) ∧
  get_activations (Foreign (Some example_matches)) (Node 7 KOR [Pattern red] 0) s0 =
    (Ret [mkActivation 7 [REntry (EPair 1 (bound "x" 1))] []],
     mkState None [EvGetActivations 7; EvMatches None red (Some 7%nat)]).
Proof. split; reflexivity. Qed.

(** *** Disjunction *)

Lemma OR_inner_first_empty ev st self id cls cs sal rest ms s :
  (ev (Node id cls cs sal) s).1 = Ret [] →
  OR_inner ev st self (Node id cls cs sal :: rest) ms s =
  (Ret ms, (ev (Node id cls cs sal) s).2).
Proof.
  intros H. simpl. unfold bind.
  destruct (ev (Node id cls cs sal) s) as [o s1]. simpl in H. by subst o.
Qed.

Lemma OR_outer_idle (inner : list or_item → M (list or_item)) ms :
  (∀ s, (inner ms s).1 = Ret ms) →
  ∀ conds s, (OR_outer inner conds ms s).1 = Ret ms.
Proof.
  intros Hin conds. induction conds as [|c conds IH]; intros s; [done|].
  simpl. unfold bind. specialize (Hin s).
  destruct (inner ms s) as [o s1]. simpl in Hin. subst o. apply IH.
Qed.

(** C10. If the first child of an [OR] is a composite element whose
    evaluation returns no activation, the [OR] returns no activation,
    whatever its later children match. *)
Theorem C10_or_first_child_empty st self osal id cls cs sal rest s :
  (∀ s1, (get_activations st (Node id cls cs sal) s1).1 = Ret []) →
  (get_activations st (Node self KOR (Node id cls cs sal :: rest) osal) s).1
    = Ret [].
Proof.
  intros Hc. cbn [get_activations]. unfold OR_get_activations, bind at 1 2, log.
  assert (∀ s1, (OR_inner (get_activations st) st self
            (Node id cls cs sal :: rest) [] s1).1 = Ret []) as Hin.
  { intros s1. by rewrite OR_inner_first_empty. }
  pose proof (OR_outer_idle _ _ Hin (Node id cls cs sal :: rest)
    (mkState (fl_rule s) (trace s ++ [EvGetActivations self]))) as H.
  destruct (OR_outer _ _ _ _) as [o s2]. simpl in H. by subst o.
Qed.

(** *** Composite children of a conjunction *)

Lemma fact_slots_shape act fs slots :
  fact_slots act fs = Ret slots →
  Forall2 (fun d fact => ∃ context, d = [ISlot fact context]) slots fs.
Proof.
  revert slots. induction fs as [|f fs IH]; intros slots; simpl.
  - intros [= <-]. constructor.
  - destruct (contexts_dict act) as [d|]; [simpl|done].
    destruct (py_get f d) as [c|]; [simpl|done].
    destruct (fact_slots act fs) as [rest|]; [simpl|done].
    intros [= <-]. constructor; eauto.
Qed.

Lemma acts_slots_shape acts slots :
  acts_slots acts = Ret slots →
  Forall2 (fun d fact => ∃ context, d = [ISlot fact context])
          slots (mjoin (facts <$> acts)).
Proof.
  revert slots. induction acts as [|act acts IH]; intros slots; simpl.
  - intros [= <-]. constructor.
  - destruct (fact_slots act (facts act)) as [here|] eqn:Hh; [simpl|done].
    destruct (acts_slots acts) as [rest|]; [simpl|done].
    intros [= <-]. apply Forall2_app; [by eapply fact_slots_shape|by apply IH].
Qed.

(** C2, as amended.  When the loop of a conjunction meets a composite child
    whose evaluation returns the non-empty [acts], it appends to [matches]
    one candidate list per fact of those activations, each holding that one
    (fact, context) tuple, and goes on with the next child; hence every
    tuple of the product holds all of these tuples, between one selection
    from the lists before and one from the lists after. *)
Theorem C2_composite_child_dimensions st self id cls cs sal rest matches
    s acts s1 slots :
  get_activations st (Node id cls cs sal) (mkState (Some self) (trace s))
    = (Ret acts, s1) →
  acts ≠ [] →
  acts_slots acts = Ret slots →
  Rule_loop (get_activations st) st self (Node id cls cs sal :: rest) matches s
    = Rule_loop (get_activations st) st self rest (matches ++ slots) s1 ∧
  Forall2 (fun d fact => ∃ context, d = [ISlot fact context])
          slots (mjoin (facts <$> acts)) ∧
  ∀ post t, t ∈ product (matches ++ slots ++ post) →
    ∃ t1 t2, t = t1 ++ mjoin slots ++ t2 ∧
             t1 ∈ product matches ∧ t2 ∈ product post.
Proof.
  intros Hev Hne Hslots. split; [|split].
  - cbn [Rule_loop]. unfold bind at 1, set_fl_rule. unfold bind at 1.
    rewrite Hev. destruct acts as [|a acts]; [done|].
    unfold bind, lift. by rewrite Hslots.
  - by apply acts_slots_shape.
  - intros post t Ht. apply elem_of_product in Ht.
    apply Forall2_app_inv_r in Ht as (t1 & t' & H1 & Ht' & ->).
    apply Forall2_app_inv_r in Ht' as (tm & t2 & Hm & H2 & ->).
    exists t1, t2. split; [|by rewrite !elem_of_product].
    f_equal. f_equal. apply Forall2_singletons; [|done].
    apply acts_slots_shape in Hslots.
    eapply Forall2_Forall_l; [exact Hslots|].
    apply Forall_forall. by intros f _ d [c ->].
Qed.

(** *** Elements that are not pairs *)

Lemma dict_update_malformed d t :
  Forall (fun it => ∀ k v, item_kv it = Some (k, v) → hashable k = true) t →
  Exists (fun it => item_kv it = None) t →
  dict_update d t = Raise ValueError.
Proof.
  intros Hk Hbad. revert d. induction Hbad as [it t Hit|it t _ IH]; intros d.
  - simpl. by rewrite Hit.
  - apply Forall_cons in Hk as [Hit Hk]. simpl.
    destruct (item_kv it) as [[k v]|]; [|done].
    rewrite (Hit k v eq_refl). by apply IH.
Qed.

(** C6, as amended.  For a tuple of the product that holds an element whose
    length is not 2 (its keys being hashable), [dict] raises [ValueError],
    which is suppressed: the merged mapping stays empty, the tuple yields
    no activation, and the remaining tuples are processed as if it were not
    there. *)
Theorem C6_malformed_tuple_yields_nothing self t ts :
  Forall (fun it => ∀ k v, item_kv it = Some (k, v) → hashable k = true) t →
  Exists (fun it => item_kv it = None) t →
  py_dict t = Raise ValueError ∧
  tuple_activation self t = Ret None ∧
  tuples_activations self (t :: ts) = tuples_activations self ts.
Proof.
  intros Hk Hbad.
  assert (py_dict t = Raise ValueError) as Hd by by apply dict_update_malformed.
  assert (tuple_activation self t = Ret None) as Ht.
  { unfold tuple_activation. rewrite Hd. simpl.
    by rewrite (py_sorted_ids []). }
  split; [done|]. split; [done|].
  simpl. rewrite Ht. simpl. by destruct (tuples_activations self ts).
Qed.

(** *** Calling a rule *)

Lemma dict_set_values (P : binding → Prop) k v (d : list (factref * binding)) :
  P v → Forall (fun kv => P kv.2) d → Forall (fun kv => P kv.2) (dict_set k v d).
Proof.
  intros Hv. induction 1 as [|[k' v'] d Hkv Hd IH]; simpl.
  - by repeat constructor.
  - case_decide; constructor; auto.
Qed.

Lemma dict_update_values (P : binding → Prop) d items d' :
  Forall (fun it => ∀ k v, item_kv it = Some (k, v) → P v) items →
  Forall (fun kv => P kv.2) d →
  dict_update d items = Ret d' → Forall (fun kv => P kv.2) d'.
Proof.
  intros Hitems. revert d. induction Hitems as [|it items Hit _ IH]; intros d Hd; simpl.
  - by intros [= <-].
  - destruct (item_kv it) as [[k v]|]; [|done].
    destruct (hashable k); [|done]. apply IH, dict_set_values; eauto.
Qed.

Lemma dict_update_hashable d items :
  Forall (fun it => ∃ k v, item_kv it = Some (k, v) ∧ hashable k = true) items →
  ∃ d', dict_update d items = Ret d'.
Proof.
  intros Hitems. revert d.
  induction Hitems as [|it items (k & v & Hit & Hk) _ IH]; intros d; simpl.
  - eauto.
  - rewrite Hit, Hk. apply IH.
Qed.

Lemma dict_get_value (P : binding → Prop) k (d : list (factref * binding)) v :
  Forall (fun kv => P kv.2) d → dict_get k d = Some v → P v.
Proof.
  induction 1 as [|[k' v'] d Hkv Hd IH]; simpl; [done|].
  case_decide; [by intros [= <-]|done].
Qed.

Lemma merge_contexts_ok contexts fs kwargs :
  Forall (fun fact => hashable fact = true) fs →
  Forall (fun kv : factref * binding => ∃ c, kv.2 = BCtx c) contexts →
  ∃ kwargs', merge_contexts contexts fs kwargs = Ret kwargs'.
Proof.
  intros Hfs Hctx. revert kwargs.
  induction Hfs as [|fact fs Hf _ IH]; intros kwargs; simpl; [eauto|].
  rewrite Hf. destruct (dict_get fact contexts) as [b|] eqn:Hget; simpl.
  - destruct (dict_get_value (fun b => ∃ c, b = BCtx c) _ _ _ Hctx Hget)
      as [c ->]. apply IH.
  - apply IH.
Qed.

Lemma receive_activation_ok activation kwargs :
  (∀ act, activation = Some act → well_bound act) →
  ∃ kwargs', receive_activation activation kwargs = Ret kwargs'.
Proof.
  destruct activation as [act|]; [|by eexists]. intros Hw.
  destruct (Hw act eq_refl) as [Hf Hc]. simpl.
  destruct (dict_update_hashable [] ((fun kv => ISlot kv.1 kv.2) <$> contexts act))
    as [d Hd].
  { apply Forall_fmap. eapply Forall_impl; [exact Hc|].
    intros [k v] [Hk _]. simpl. eauto. }
  unfold contexts_dict, py_dict. rewrite Hd. simpl.
  apply merge_contexts_ok; [done|].
  eapply (dict_update_values (fun b => ∃ c, b = BCtx c)); [| |exact Hd].
  - apply Forall_fmap. eapply Forall_impl; [exact Hc|].
    intros [k v] [_ Hv] k' v' [= <- <-]. exact Hv.
  - constructor.
Qed.


(** The first call with a function records it and returns the rule. *)
Lemma Rule_call_records conds sal args name kwargs :
  Rule_call (mkRule None conds sal) (Some (OFn name)) args None kwargs =
  (Ret ReturnsSelf, mkRule (Some (OFn name)) conds sal).
Proof. reflexivity. Qed.

(** Once a function is recorded, a call passes it the arguments and the
    bindings of the activation. *)
Lemma Rule_call_fires self f args act kwargs kwargs' :
  __fn self = Some f →
  receive_activation (Some act) kwargs = Ret kwargs' →
  Rule_call self None args (Some act) kwargs =
  (Ret (Calls f args kwargs'), self).
Proof. unfold Rule_call. by intros -> ->. Qed.

(** *** What [OR] accumulates *)

(** C3, at the failing input.  With two children, [OR] matches each of them
    twice, and [facts] holds, once per pass, the first element of the match
    list of [red] as a whole pair: not the identifiers 1 and 2. *)
Theorem C3_or_failing_input :
  get_activations example_store (Node 7 KOR [Pattern red; Pattern green] 0) s0 =
    (Ret [mkActivation 7 [REntry (EPair 1 (bound "x" 1));
                          REntry (EPair 1 (bound "x" 1))] []],
     mkState None [EvGetActivations 7;
                   EvMatches None red (Some 7%nat);
                   EvMatches None green (Some 7%nat);
                   EvMatches None red (Some 7%nat);
                   EvMatches None green (Some 7%nat)]).
Proof. reflexivity. Qed.

End Properties.

(** * Further properties of the evaluation *)

Lemma length_remove_dups `{EqDecision A} (l : list A) :
  (length (remove_dups l) ≤ length l)%nat.
Proof. induction l as [|x l IH]; simpl; [lia|]. case_decide; simpl; lia. Qed.

Lemma product_singleton_list {A} (l : list A) :
  product [l] = (fun x => [x]) <$> l.
Proof. simpl. induction l as [|x l IH]; [done|]. simpl. by f_equal. Qed.

Lemma length_product {A} (ls : list (list A)) :
  length (product ls) = foldr (fun l n => (length l * n)%nat) 1%nat ls.
Proof.
  induction ls as [|l ls IH]; [done|]. cbn [product foldr]. rewrite <- IH.
  generalize (product ls). intros k. induction l as [|x l IHl]; [done|].
  rewrite bind_cons, length_app, length_fmap, IHl. simpl. lia.
Qed.

(** The keys of a dictionary after an assignment. *)
Lemma dict_set_keys {K V} `{EqDecision K} (k : K) (v : V) (d : list (K * V)) :
  (dict_set k v d).*1 = if decide (k ∈ d.*1) then d.*1 else d.*1 ++ [k].
Proof.
  induction d as [|[k' v'] d IH].
  - destruct (decide (k ∈ _)) as [Hin|]; [|done]. by apply elem_of_nil in Hin.
  - cbn [dict_set]. destruct (decide (k = k')) as [->|Hne].
    + rewrite decide_True; [done|]. apply list_elem_of_here.
    + rewrite !fmap_cons, IH. cbn [fst].
      destruct (decide (k ∈ d.*1)) as [Hin|Hnin].
      * rewrite decide_True; [done|]. by apply list_elem_of_further.
      * rewrite decide_False; [done|].
        rewrite elem_of_cons. intros [?|?]; done.
Qed.

Lemma dict_set_keys_NoDup {K V} `{EqDecision K} (k : K) (v : V)
    (d : list (K * V)) :
  NoDup d.*1 → NoDup (dict_set k v d).*1.
Proof.
  intros Hd. rewrite dict_set_keys. case_decide; [done|].
  apply NoDup_app. split; [done|]. split; [|apply NoDup_singleton].
  intros x Hx ->%list_elem_of_singleton. done.
Qed.

Lemma dict_get_set {K V} `{EqDecision K} (k k' : K) (v : V)
    (d : list (K * V)) :
  dict_get k' (dict_set k v d) = if decide (k' = k) then Some v else dict_get k' d.
Proof.
  induction d as [|[k0 v0] d IH]; simpl.
  - by case_decide.
  - destruct (decide (k = k0)) as [->|Hne]; simpl.
    + by repeat case_decide.
    + rewrite IH. repeat case_decide; simplify_eq; done.
Qed.


#[local] Instance RId_inj : Inj (=) (=) RId.
Proof. by intros i j [= ->]. Qed.

Lemma item_kv_entry e k v :
  item_kv (IEntry e) = Some (k, v) → ∃ i, k = RId i.
Proof.
  destruct e as [i c|[|i [|j [|? ?]]]]; simpl; intros [= <- <-]; eauto.
Qed.

Lemma entries_tuple (t : list item) :
  Forall (fun it => ∃ e, it = IEntry e) t → ∃ es, t = IEntry <$> es.
Proof.
  induction 1 as [|it t [e ->] _ [es ->]]; [by exists []|]. by exists (e :: es).
Qed.

Lemma id_keys_set d ids i v :
  id_keys d ids →
  id_keys (dict_set (RId i) v d) (if decide (i ∈ ids) then ids else ids ++ [i]).
Proof.
  intros [Hk Hnd]. split.
  - rewrite dict_set_keys, Hk.
    destruct (decide (i ∈ ids)) as [Hin|Hnin].
    + rewrite decide_True; [done|]. by apply (list_elem_of_fmap_inj RId).
    + rewrite decide_False; [by rewrite fmap_app|].
      by rewrite (list_elem_of_fmap_inj RId).
  - case_decide; [done|]. apply NoDup_app. split; [done|].
    split; [|apply NoDup_singleton].
    by intros x Hx ->%list_elem_of_singleton.
Qed.

Section More.
Context `{RT : Runtime} `{!RuntimeLaws RT}.

Lemma length_tuple_of_set (l : list Activation) :
  (length (tuple_of_set l) ≤ length l)%nat.
Proof. rewrite tuple_of_set_perm. apply length_remove_dups. Qed.

(** *** What the generator yields *)

Lemma tuples_activations_elem self ts ys :
  tuples_activations self ts = Ret ys →
  ∀ a, a ∈ ys ↔ ∃ t, t ∈ ts ∧ tuple_activation self t = Ret (Some a).
Proof.
  revert ys. induction ts as [|t ts IH]; intros ys; simpl.
  - intros [= <-] a. split; [by intros ?%elem_of_nil|].
    by intros (t & ?%elem_of_nil & _).
  - destruct (tuple_activation self t) as [oa|] eqn:Ht; [simpl|done].
    destruct (tuples_activations self ts) as [rest|]; [simpl|done].
    intros [= <-] a. specialize (IH rest eq_refl a).
    destruct oa as [a0|].
    + rewrite elem_of_cons, IH. split.
      * intros [->|(t' & Hin & Ht')].
        -- exists t. split; [apply list_elem_of_here|done].
        -- exists t'. split; [by apply list_elem_of_further|done].
      * intros (t' & [->|Hin]%elem_of_cons & Ht'); [left; congruence|].
        right. eauto.
    + rewrite IH. split.
      * intros (t' & Hin & Ht'). exists t'.
        split; [by apply list_elem_of_further|done].
      * intros (t' & [->|Hin]%elem_of_cons & Ht'); [congruence|]. eauto.
Qed.

Lemma tuples_activations_length self ts ys :
  tuples_activations self ts = Ret ys → (length ys ≤ length ts)%nat.
Proof.
  revert ys. induction ts as [|t ts IH]; intros ys; simpl.
  - by intros [= <-].
  - destruct (tuple_activation self t) as [oa|]; [simpl|done].
    destruct (tuples_activations self ts) as [rest|]; [simpl|done].
    intros [= <-]. specialize (IH rest eq_refl). destruct oa; simpl; lia.
Qed.

Lemma tuples_activations_total self ts :
  Forall (fun t => ∃ oa, tuple_activation self t = Ret oa) ts →
  ∃ ys, tuples_activations self ts = Ret ys.
Proof.
  induction 1 as [|t ts [oa Ht] _ [ys IH]]; simpl; [eauto|].
  rewrite Ht, IH. simpl. eauto.
Qed.

(** *** Tuples of match elements *)

Lemma dict_update_entries d ids es :
  id_keys d ids →
  dict_update d (IEntry <$> es) = Raise ValueError ∨
  ∃ d' ids', dict_update d (IEntry <$> es) = Ret d' ∧ id_keys d' ids'.
Proof.
  revert d ids. induction es as [|e es IH]; intros d ids Hd.
  - right. simpl. eauto.
  - rewrite fmap_cons. cbn [dict_update].
    destruct (item_kv (IEntry e)) as [[k v]|] eqn:He; [|by left].
    destruct (item_kv_entry _ _ _ He) as [i ->]. rewrite hashable_id.
    eapply IH. by apply id_keys_set.
Qed.

Lemma tuple_activation_entries self es :
  ∃ oa, tuple_activation self (IEntry <$> es) = Ret oa ∧
        ∀ a, oa = Some a → sorted_ids_activation self a.
Proof.
  unfold tuple_activation, py_dict.
  destruct (dict_update_entries [] [] es) as [->|(d & ids & -> & Hd)].
  { split; [done|constructor]. }
  - simpl. rewrite (py_sorted_ids []). simpl. by eexists.
  - simpl. destruct Hd as [Hk Hnd]. rewrite Hk, py_sorted_ids. simpl.
    destruct (RId <$> merge_sort Z.le ids) as [|f fs] eqn:Hs.
    + by eexists.
    + eexists. split; [done|]. intros a [= <-]. split; [done|].
      exists ids. split; [done|]. split; [|done].
      intros ->. done.
Qed.

(** *** A conjunction of patterns *)

Lemma Rule_loop_patterns ev (m : matches_fn) self ps ms s :
  ∃ s',
    Rule_loop ev (FactList m) self (Pattern <$> ps) ms s =
    (Ret (if decide (Forall (fun p => m (Some self) p (Some self) ≠ []) ps)
          then Some (ms ++ ((fun p => IEntry <$> m (Some self) p (Some self))
                              <$> ps))
          else None), s').
Proof.
  revert ms s. induction ps as [|p ps IH]; intros ms s.
  - exists s. destruct (decide (Forall _ [])) as [_|Hn];
      [|destruct Hn; constructor].
    simpl. by rewrite app_nil_r.
  - rewrite fmap_cons. cbn [Rule_loop]. run. simpl.
    destruct (m (Some self) p (Some self)) as [|e es] eqn:Hp.
    + eexists. rewrite decide_False; [done|].
      by intros [? _]%Forall_cons.
    + edestruct IH as [s' ->]. exists s'. f_equal. f_equal.
      destruct (decide (Forall _ ps)) as [Hps|Hps].
      * rewrite decide_True.
        -- by rewrite <- app_assoc.
        -- apply Forall_cons. split; [cbn beta; by rewrite Hp|done].
      * rewrite decide_False; [done|]. by intros [_ ?]%Forall_cons.
Qed.

Lemma product_entries (ess : list (list entry)) t :
  t ∈ product ((fun es : list entry => IEntry <$> es) <$> ess) →
  ∃ es : list entry, t = IEntry <$> es.
Proof.
  intros Ht%elem_of_product. apply entries_tuple.
  revert t Ht. induction ess as [|es ess IH]; intros t Ht.
  - apply Forall2_nil_inv_r in Ht as ->. constructor.
  - rewrite fmap_cons in Ht.
    apply Forall2_cons_inv_r in Ht as (x & t' & Hx & Ht' & ->).
    constructor; [|by apply IH].
    apply list_elem_of_fmap in Hx as (e & -> & _). eauto.
Qed.

Lemma Rule_patterns_eval (m : matches_fn) self cls sal ps s :
  cls = KRule ∨ cls = KAND →
  ∃ yielded s',
    get_activations (FactList m) (Node self cls (Pattern <$> ps) sal) s
      = (Ret (tuple_of_set yielded), s') ∧
    (length yielded ≤ combinations m self ps)%nat ∧
    ∀ a, a ∈ yielded → sorted_ids_activation self a.
Proof.
  intros Hcls.
  assert (∃ yielded s',
    Rule_get_activations (get_activations (FactList m)) (FactList m) self
      (Pattern <$> ps) s = (Ret (tuple_of_set yielded), s') ∧
    (length yielded ≤ combinations m self ps)%nat ∧
    ∀ a, a ∈ yielded → sorted_ids_activation self a) as H.
  { unfold Rule_get_activations, _activations, bind at 1 2 3, log. simpl.
    edestruct (Rule_loop_patterns (get_activations (FactList m)) m self ps [])
      as [s' ->].
    destruct (decide (Forall _ ps)) as [Hps|Hps].
    - simpl. set (ess := (fun p => m (Some self) p (Some self)) <$> ps).
      assert (((fun p => IEntry <$> m (Some self) p (Some self)) <$> ps) =
              (fun es : list entry => IEntry <$> es) <$> ess) as ->.
      { unfold ess. by rewrite <- list_fmap_compose. }
      destruct (tuples_activations_total self
                  (product ((fun es : list entry => IEntry <$> es) <$> ess))) as [ys Hys].
      { apply Forall_forall. intros t [es ->]%product_entries.
        destruct (tuple_activation_entries self es) as (oa & -> & _). eauto. }
      unfold lift, ret. rewrite Hys. exists ys, s'. split; [done|]. split.
      + pose proof (tuples_activations_length _ _ _ Hys) as Hlen.
        rewrite length_product in Hlen.
        assert (combinations m self ps =
                foldr (fun (l : list item) n => (length l * n)%nat) 1%nat
                  ((fun es : list entry => IEntry <$> es) <$> ess)) as ->;
          [|exact Hlen].
        unfold combinations, ess. clear.
        induction ps as [|p ps IH]; [done|].
        simpl. rewrite length_fmap. by f_equal.
      + intros a Ha.
        apply (tuples_activations_elem _ _ _ Hys) in Ha as (t & Ht & Hta).
        apply product_entries in Ht as [es ->].
        destruct (tuple_activation_entries self es) as (oa & Hoa & Hshape).
        apply Hshape. congruence.
    - exists [], s'. unfold ret. split; [done|]. split; [simpl; lia|].
      by intros a ?%elem_of_nil. }
  by destruct Hcls as [-> | ->].
Qed.

(** X4. A conjunction (a base rule or an [AND]) whose conditions are all
    patterns never raises on a fact list, whatever the store answers, and
    returns at most as many activations as there are combinations of one
    match per pattern. *)
Theorem Rule_patterns_bounded (m : matches_fn) self cls sal ps s :
  cls = KRule ∨ cls = KAND →
  ∃ acts s',
    get_activations (FactList m) (Node self cls (Pattern <$> ps) sal) s
      = (Ret acts, s') ∧
    (length acts ≤ combinations m self ps)%nat.
Proof.
  intros Hcls.
  destruct (Rule_patterns_eval m self cls sal ps s Hcls)
    as (ys & s' & Heq & Hlen & _).
  exists (tuple_of_set ys), s'. split; [done|].
  etrans; [apply length_tuple_of_set|done].
Qed.

(** X5. Every activation a conjunction of patterns returns belongs to that
    rule, its contexts are keyed by fact identifiers, each once, and its
    facts are exactly these identifiers in ascending order, at least one. *)
Theorem Rule_patterns_activation_shape (m : matches_fn) self cls sal ps
    s acts s' a :
  cls = KRule ∨ cls = KAND →
  get_activations (FactList m) (Node self cls (Pattern <$> ps) sal) s
    = (Ret acts, s') →
  a ∈ acts →
  rule a = self ∧
  ∃ ids, (contexts a).*1 = RId <$> ids ∧ NoDup ids ∧ ids ≠ [] ∧
         facts a = RId <$> merge_sort Z.le ids ∧
         Sorted Z.le (merge_sort Z.le ids) ∧ merge_sort Z.le ids ≡ₚ ids.
Proof.
  intros Hcls Hev Ha.
  destruct (Rule_patterns_eval m self cls sal ps s Hcls)
    as (ys & s'' & Heq & _ & Hshape).
  rewrite Heq in Hev. injection Hev as <- <-.
  apply elem_of_tuple_of_set, Hshape in Ha as [Hr (ids & [Hk Hnd] & Hne & Hf)].
  split; [done|]. exists ids. repeat split; try done.
  - apply Sorted_merge_sort. intros x y. lia.
  - apply merge_sort_Permutation.
Qed.

(** *** A single pattern *)

Lemma tuple_activation_single self i c :
  tuple_activation self [IEntry (EPair i c)] =
  Ret (Some (single_activation self i c)).
Proof.
  unfold tuple_activation, py_dict. simpl. rewrite hashable_id. simpl.
  by rewrite py_sorted_one.
Qed.

Lemma tuples_activations_singles self (pairs : list (Z * Context)) :
  tuples_activations self
    ((fun x => [x]) <$> (IEntry <$> ((fun p => EPair p.1 p.2) <$> pairs))) =
  Ret ((fun p => single_activation self p.1 p.2) <$> pairs).
Proof.
  induction pairs as [|[i c] pairs IH]; [done|].
  rewrite !fmap_cons. cbn [tuples_activations].
  rewrite tuple_activation_single, IH. done.
Qed.

Lemma Rule_single_pattern_eval (m : matches_fn) self cls sal P
    (pairs : list (Z * Context)) s :
  cls = KRule ∨ cls = KAND →
  m (Some self) P (Some self) = (fun p => EPair p.1 p.2) <$> pairs →
  ∃ s',
    get_activations (FactList m) (Node self cls [Pattern P] sal) s =
    (Ret (tuple_of_set ((fun p => single_activation self p.1 p.2) <$> pairs)),
     s').
Proof.
  intros Hcls Hm.
  assert (∃ s', Rule_get_activations (get_activations (FactList m))
            (FactList m) self [Pattern P] s =
          (Ret (tuple_of_set
                  ((fun p => single_activation self p.1 p.2) <$> pairs)), s'))
    as [s' Hs'].
  { unfold Rule_get_activations, _activations. simpl. run. simpl.
    rewrite Hm.
    destruct ((fun p : Z * Context => EPair p.1 p.2) <$> pairs) as [|e es] eqn:E.
    { apply fmap_nil_inv in E as ->. by eexists. }
    rewrite <- E, product_singleton_list, tuples_activations_singles.
    by eexists. }
  exists s'. by destruct Hcls as [-> | ->].
Qed.

(** X6. A conjunction with the single pattern [P] returns one activation per
    matched fact and nothing else: the activation of [(idx, context)] has
    facts [(idx,)] and contexts [((idx, context),)]. *)
Theorem Rule_single_pattern (m : matches_fn) self cls sal P
    (pairs : list (Z * Context)) s :
  cls = KRule ∨ cls = KAND →
  m (Some self) P (Some self) = (fun p => EPair p.1 p.2) <$> pairs →
  ∃ acts s',
    get_activations (FactList m) (Node self cls [Pattern P] sal) s
      = (Ret acts, s') ∧
    NoDup acts ∧
    ∀ a, a ∈ acts ↔ ∃ idx context,
           (idx, context) ∈ pairs ∧ a = single_activation self idx context.
Proof.
  intros Hcls Hm.
  destruct (Rule_single_pattern_eval m self cls sal P pairs s Hcls Hm)
    as [s' Hs'].
  exists (tuple_of_set ((fun p => single_activation self p.1 p.2) <$> pairs)), s'.
  split; [done|]. split; [apply NoDup_tuple_of_set|].
  intros a. rewrite elem_of_tuple_of_set, list_elem_of_fmap. split.
  - intros ([i c] & -> & Hin). eauto.
  - intros (i & c & Hin & ->). by exists (i, c).
Qed.

(** *** Attribution *)

Lemma tuple_activation_some self t a :
  tuple_activation self t = Ret (Some a) → rule a = self ∧ facts a ≠ [].
Proof.
  unfold tuple_activation.
  destruct (suppress _ _ _) as [d|]; [simpl|done].
  destruct (py_sorted _) as [[|f fs]|]; simpl; [done| |done].
  by intros [= <-].
Qed.

Lemma or_facts_length ms fs :
  or_facts ms = Ret fs → length fs = length ms.
Proof.
  revert fs. induction ms as [|it ms IH]; intros fs; simpl.
  - by intros [= <-].
  - destruct (or_item_first it); [simpl|done].
    destruct (or_facts ms) as [fs'|]; [simpl|done].
    intros [= <-]. simpl. by rewrite (IH fs').
Qed.

(** X1. Every activation returned for a rule, whatever its class and its
    children, names that rule (never a child) and holds at least one
    fact. *)
Theorem activations_attributed st id cls conds sal s acts s' a :
  get_activations st (Node id cls conds sal) s = (Ret acts, s') →
  a ∈ acts →
  rule a = id ∧ facts a ≠ [].
Proof.
  assert (∀ acts s',
    Rule_get_activations (get_activations st) st id conds s = (Ret acts, s') →
    a ∈ acts → rule a = id ∧ facts a ≠ []) as HRule.
  { intros acts0 s0' H Ha.
    apply Rule_get_activations_elements in H as (_ & ys & Hys & Hiff).
    apply Hiff in Ha. unfold _activations, bind in Hys.
    destruct (Rule_loop _ _ _ _ _ _) as [[[ms|]|e] s1]; [| |done].
    - unfold lift in Hys.
      destruct (tuples_activations id (product ms)) as [ys'|] eqn:Ht; [|done].
      injection Hys as <- <-.
      apply (tuples_activations_elem _ _ _ Ht) in Ha as (t & _ & Hta).
      by eapply tuple_activation_some.
    - unfold ret in Hys. injection Hys as <- <-. by apply elem_of_nil in Ha. }
  destruct cls; cbn [get_activations]; [apply HRule|apply HRule| |].
  - unfold NOT_get_activations. intros H Ha. run.
    repeat case_match; simplify_eq;
      try (by apply elem_of_nil in Ha);
      by apply list_elem_of_singleton in Ha as ->.
  - unfold OR_get_activations. intros H Ha. run.
    repeat case_match; simplify_eq;
      try (by apply elem_of_nil in Ha).
    apply list_elem_of_singleton in Ha as ->. split; [done|]. simpl.
    match goal with Hf : or_facts _ = Ret _ |- _ =>
      apply or_facts_length in Hf; simpl in Hf end.
    intros ->. done.
Qed.

(** *** A disjunction of patterns *)

(** What one pass of the inner loop of [OR] appends for the patterns. *)
Lemma OR_inner_patterns ev st (m : matches_fn) self ps ms s :
  matches_attr st = Some m →
  OR_inner ev st self (Pattern <$> ps) ms s =
  (Ret (ms ++ omap (fun p => match m (fl_rule s) p (Some self) with
                            | [] => None
                            | r => Some (OMatch r)
                            end) ps),
   mkState (fl_rule s)
     (trace s ++ ((fun p => EvMatches (fl_rule s) p (Some self)) <$> ps))).
Proof.
  intros Hm. revert ms s. induction ps as [|p ps IH]; intros ms s.
  - simpl. unfold ret. rewrite !app_nil_r. by destruct s.
  - rewrite fmap_cons. cbn [OR_inner]. unfold bind, call_matches.
    rewrite Hm. cbn [omap list_omap fmap list_fmap].
    destruct (m (fl_rule s) p (Some self)) as [|e es]; rewrite IH; simpl;
      by rewrite <- ?app_assoc.
Qed.

Lemma OR_outer_repeat (inner : list or_item → M (list or_item))
    (add : option RuleId → list or_item) (evs : option RuleId → list event) :
  (∀ ms s, inner ms s =
     (Ret (ms ++ add (fl_rule s)),
      mkState (fl_rule s) (trace s ++ evs (fl_rule s)))) →
  ∀ (conds : list CE) ms s,
    OR_outer inner conds ms s =
    (Ret (ms ++ mjoin (replicate (length conds) (add (fl_rule s)))),
     mkState (fl_rule s)
       (trace s ++ mjoin (replicate (length conds) (evs (fl_rule s))))).
Proof.
  intros Hin conds. induction conds as [|c conds IH]; intros ms s.
  - simpl. unfold ret. rewrite !app_nil_r. by destruct s.
  - cbn [OR_outer]. unfold bind. rewrite Hin, IH. simpl.
    by rewrite <- !app_assoc.
Qed.

Lemma or_facts_app l1 l2 f1 f2 :
  or_facts l1 = Ret f1 → or_facts l2 = Ret f2 →
  or_facts (l1 ++ l2) = Ret (f1 ++ f2).
Proof.
  revert f1. induction l1 as [|it l1 IH]; intros f1; simpl.
  - by intros [= <-].
  - destruct (or_item_first it); [simpl|done].
    destruct (or_facts l1) as [f1'|]; [simpl|done].
    intros [= <-] H2. by rewrite (IH f1' eq_refl H2).
Qed.

Lemma or_facts_patterns (m : matches_fn) marker self ps :
  or_facts (omap (fun p => match m marker p (Some self) with
                           | [] => None
                           | r => Some (OMatch r)
                           end) ps) =
  Ret (first_entries m marker self ps).
Proof.
  unfold first_entries. induction ps as [|p ps IH]; [done|].
  cbn [omap list_omap]. destruct (m marker p (Some self)) as [|e es]; [done|].
  simpl. simpl in IH. by rewrite IH.
Qed.

Lemma or_facts_replicate n l fs :
  or_facts l = Ret fs →
  or_facts (mjoin (replicate n l)) = Ret (mjoin (replicate n fs)).
Proof.
  intros Hl. induction n as [|n IH]; [done|]. simpl.
  by apply or_facts_app.
Qed.

(** X12. On any object with a [matches] method, an [OR] whose children are
    the patterns [ps] asks the store for each pattern once per child, with
    the [rule] attribute of the store left as it was; its single activation
    lists, once per pass, the first element of each non-empty match list,
    and it returns nothing exactly when no pattern matches. *)
Theorem OR_patterns (st : store) (m : matches_fn) self sal ps s :
  matches_attr st = Some m →
  let marker := fl_rule s in
  let firsts := first_entries m marker self ps in
  get_activations st (Node self KOR (Pattern <$> ps) sal) s =
  (Ret (match firsts with
        | [] => []
        | _ => [mkActivation self (mjoin (replicate (length ps) firsts)) []]
        end),
   mkState marker
     (trace s ++ EvGetActivations self ::
        mjoin (replicate (length ps)
                 ((fun p => EvMatches marker p (Some self)) <$> ps)))).
Proof.
  intros Hm marker firsts. cbn [get_activations].
  unfold OR_get_activations, bind at 1 2, log.
  rewrite (OR_outer_repeat _
    (fun mk => omap (fun p => match m mk p (Some self) with
                              | [] => None
                              | r => Some (OMatch r)
                              end) ps)
    (fun mk => (fun p => EvMatches mk p (Some self)) <$> ps)).
  2:{ intros ms s1. by apply OR_inner_patterns. }
  cbn [fl_rule trace app]. rewrite length_fmap, <- app_assoc. cbn [app].
  fold marker.
  pose proof (or_facts_patterns m marker self ps) as Hf. fold firsts in Hf.
  set (adds := omap _ ps) in *.
  destruct adds as [|it adds'] eqn:Hadds.
  - simpl in Hf. injection Hf as <-.
    assert (mjoin (replicate (length ps) (@nil or_item)) = []) as ->.
    { clear. induction (length ps); [done|]. done. }
    done.
  - destruct ps as [|p ps']; [done|].
    destruct firsts as [|f fs] eqn:Hfirsts.
    { apply or_facts_length in Hf. done. }
    pose proof (or_facts_replicate (length (p :: ps')) _ _ Hf) as Hrep.
    cbn [length replicate mjoin list_join] in *.
    cbn [app] in *. unfold bind, lift, ret. by rewrite Hrep.
Qed.

(** *** A [NOT] without conditions *)

Lemma tuple_activation_one_entry self e k v :
  item_kv (IEntry e) = Some (k, v) →
  ∃ a, tuple_activation self [IEntry e] = Ret (Some a).
Proof.
  intros He. destruct (item_kv_entry _ _ _ He) as [i ->].
  unfold tuple_activation, py_dict. cbn [dict_update].
  rewrite He, hashable_id. simpl. rewrite py_sorted_one. eauto.
Qed.

(** X11. A [NOT] built without conditions negates [InitialFact] itself: on a
    store whose answer for [InitialFact] does not depend on who asks, it
    never returns an activation. *)
Theorem NOT_without_conditions (m : matches_fn) id sal s acts s' :
  (∀ marker r, m marker InitialFact r = m None InitialFact None) →
  get_activations (FactList m) (new_rule KNOT id [] sal) s = (Ret acts, s') →
  acts = [].
Proof.
  intros Hind H. unfold new_rule in H. cbn [get_activations] in H.
  unfold NOT_get_activations, bind at 1 in H.
  destruct (Rule_get_activations _ _ _ _ _) as [[[|a0 acts0]|e] s1] eqn:HR;
    [| |done].
  2:{ unfold ret in H. by injection H as <- <-. }
  unfold bind, call_matches, ret, lift in H. simpl in H.
  rewrite Hind in H.
  unfold Rule_get_activations, _activations in HR. simpl in HR.
  unfold bind, log, set_fl_rule, call_matches, ret, lift in HR. simpl in HR.
  rewrite Hind in HR.
  destruct (m None InitialFact None) as [|e es] eqn:Hes.
  { by injection H as <- <-. }
  rewrite <- Hes in HR. rewrite product_singleton_list, Hes in HR.
  rewrite !fmap_cons in HR. cbn [tuples_activations] in HR.
  destruct (item_kv (IEntry e)) as [[k v]|] eqn:He.
  - destruct (tuple_activation_one_entry id e k v He) as [a Ha].
    rewrite Ha in HR. simpl in HR.
    destruct (tuples_activations _ _) as [rest|]; simpl in HR; [|done].
    injection HR as HR _.
    assert (a ∈ tuple_of_set (a :: rest)) as Hin.
    { apply elem_of_tuple_of_set, list_elem_of_here. }
    rewrite HR in Hin. by apply elem_of_nil in Hin.
  - unfold unpack_entry in H. by rewrite He in H.
Qed.

(** *** Conditions that are neither rules nor facts *)

Lemma Rule_loop_marker ev st self conds ms s marker :
  conds ≠ [] →
  Rule_loop ev st self conds ms (mkState marker (trace s)) =
  Rule_loop ev st self conds ms s.
Proof. by destruct conds. Qed.

Lemma Rule_loop_skip_Other ev st self pre post ms s :
  (Rule_loop ev st self (pre ++ Other :: post) ms s).1 =
    (Rule_loop ev st self (pre ++ post) ms s).1 ∧
  trace (Rule_loop ev st self (pre ++ Other :: post) ms s).2 =
    trace (Rule_loop ev st self (pre ++ post) ms s).2.
Proof.
  rewrite !Rule_loop_app.
  destruct (Rule_loop ev st self pre ms s) as [[[ms'|]|e] s1]; [|done|done].
  change (Rule_loop ev st self (Other :: post) ms' s1)
    with (Rule_loop ev st self post ms' (mkState (Some self) (trace s1))).
  destruct post as [|c post]; [done|]. by rewrite Rule_loop_marker.
Qed.

Lemma Rule_loop_only_Other ev st self n s :
  Rule_loop ev st self (replicate (S n) Other) [] s =
  (Ret (Some []), mkState (Some self) (trace s)).
Proof.
  revert s. induction n as [|n IH]; intros s; [done|].
  change (Rule_loop ev st self (replicate (S (S n)) Other) [] s)
    with (Rule_loop ev st self (replicate (S n) Other) []
            (mkState (Some self) (trace s))).
  by rewrite IH.
Qed.

(** A conjunction built from such objects alone finds nothing to combine and
    returns no activation, where one built without any condition matches
    [InitialFact]: the comparison of X3 below needs another member. *)
Lemma Rule_only_other_objects m self cls sal n s :
  cls = KRule ∨ cls = KAND →
  get_activations (FactList m) (new_rule cls self (replicate (S n) Other) sal) s
  = (Ret [], mkState (Some self) (trace s ++ [EvGetActivations self])).
Proof.
  intros Hcls.
  assert (Rule_get_activations (get_activations (FactList m)) (FactList m) self
            (replicate (S n) Other) s =
          (Ret [], mkState (Some self) (trace s ++ [EvGetActivations self])))
    as H.
  { unfold Rule_get_activations, _activations, bind, log, ret, raise, lift.
    cbn [is_FactList]. rewrite Rule_loop_only_Other.
    cbn [product foldr tuples_activations tuple_activation py_dict dict_update
         suppress obind fmap list_fmap trace fl_rule].
    change (@nil factref) with (RId <$> []). rewrite py_sorted_ids.
    cbn. by rewrite tuple_of_set_nil. }
  by destruct Hcls as [-> | ->].
Qed.

(** X3. A member of [conds] that is neither a rule nor a fact is passed over
    in silence: beside at least one other member, a conjunction built with it
    returns the same result (or raises the same exception) after the same
    calls as the conjunction built without it. *)
Theorem Rule_ignores_other_objects st self cls sal pre post s :
  cls = KRule ∨ cls = KAND → pre ++ post ≠ [] →
  (get_activations st (new_rule cls self (pre ++ Other :: post) sal) s).1 =
    (get_activations st (new_rule cls self (pre ++ post) sal) s).1 ∧
  trace (get_activations st (new_rule cls self (pre ++ Other :: post) sal) s).2 =
    trace (get_activations st (new_rule cls self (pre ++ post) sal) s).2.
Proof.
  intros Hcls Hne.
  assert (new_rule cls self (pre ++ Other :: post) sal =
          Node self cls (pre ++ Other :: post) sal) as ->.
  { unfold new_rule. by destruct pre. }
  assert (new_rule cls self (pre ++ post) sal =
          Node self cls (pre ++ post) sal) as ->.
  { unfold new_rule. by destruct (pre ++ post). }
  assert ((Rule_get_activations (get_activations st) st self
             (pre ++ Other :: post) s).1 =
          (Rule_get_activations (get_activations st) st self
             (pre ++ post) s).1 ∧
          trace (Rule_get_activations (get_activations st) st self
             (pre ++ Other :: post) s).2 =
          trace (Rule_get_activations (get_activations st) st self
             (pre ++ post) s).2) as H.
  { unfold Rule_get_activations, _activations, bind, log, ret, raise, lift.
    simpl. destruct (is_FactList st); [|done].
    match goal with |- context [Rule_loop ?ev st self (pre ++ Other :: post) [] ?s0] =>
      destruct (Rule_loop_skip_Other ev st self pre post [] s0) as [H1 H2];
      destruct (Rule_loop ev st self (pre ++ Other :: post) [] s0) as [o1 t1];
      destruct (Rule_loop ev st self (pre ++ post) [] s0) as [o2 t2]
    end.
    simpl in H1, H2. subst o2.
    destruct o1 as [[ms|]|e]; simpl; [|done|done].
    by destruct (tuples_activations self (product ms)). }
  by destruct Hcls as [-> | ->].
Qed.

(** *** The store argument of a conjunction or a negation *)

(** X2. Given an object that is not a fact list, [get_activations] of a base
    rule, an [AND] or a [NOT] raises [ValueError] at once, whatever the
    conditions: no condition is evaluated and the object is not touched. *)
Theorem Rule_rejects_non_FactList st id cls conds sal s :
  is_FactList st = false → cls ≠ KOR →
  get_activations st (Node id cls conds sal) s =
  (Raise ValueError, mkState (fl_rule s) (trace s ++ [EvGetActivations id])).
Proof.
  destruct st as [m|m]; [done|]. intros _ Hcls.
  by apply get_activations_foreign_store.
Qed.

(** *** The bindings passed to the recorded function *)

Lemma dict_set_fresh {K V} `{EqDecision K} (k : K) (v : V) (d : list (K * V)) :
  k ∉ d.*1 → dict_set k v d = d ++ [(k, v)].
Proof.
  induction d as [|[k' v'] d IH]; [done|]. simpl.
  intros [Hne Hnin]%not_elem_of_cons.
  rewrite decide_False by done. by rewrite IH.
Qed.

Lemma dict_get_elem {K V} `{EqDecision K} (k : K) (v : V) (d : list (K * V)) :
  NoDup d.*1 → dict_get k d = Some v ↔ (k, v) ∈ d.
Proof.
  induction d as [|[k' v'] d IH]; simpl.
  - intros _. split; [done|]. by intros ?%elem_of_nil.
  - intros [Hnin Hnd]%NoDup_cons. rewrite elem_of_cons.
    destruct (decide (k = k')) as [->|Hne].
    + split; [intros [= ->]; by left|].
      intros [[= ->]|Hin]; [done|]. destruct Hnin.
      apply list_elem_of_fmap. by exists (k', v).
    + rewrite (IH Hnd). split; [by right|]. by intros [[= ? ?]|?].
Qed.

Lemma merge_contexts_app d l1 l2 kwargs :
  merge_contexts d (l1 ++ l2) kwargs =
  obind (merge_contexts d l1 kwargs) (merge_contexts d l2).
Proof.
  revert kwargs. induction l1 as [|f l1 IH]; intros kwargs; [done|]. simpl.
  destruct (hashable f); [|done].
  by destruct (default (BCtx ∅) (dict_get f d)).
Qed.

Lemma merge_contexts_keeps d fs (kwargs kwargs' : Context) (x : string) :
  merge_contexts d fs kwargs = Ret kwargs' →
  (∀ fact c, fact ∈ fs → dict_get fact d = Some (BCtx c) → c !! x = None) →
  kwargs' !! x = kwargs !! x.
Proof.
  revert kwargs. induction fs as [|f fs IH]; intros kwargs; simpl.
  - by intros [= <-].
  - destruct (hashable f); [|done]. intros H Hno.
    destruct (dict_get f d) as [b|] eqn:Hget; simpl in H.
    + destruct b as [c| |]; try done.
      rewrite (IH _ H).
      * apply lookup_union_r. eapply Hno; [apply list_elem_of_here|done].
      * intros fact c' Hin. apply Hno. by apply list_elem_of_further.
    + rewrite (IH _ H).
      * apply lookup_union_r, lookup_empty.
      * intros fact c' Hin. apply Hno. by apply list_elem_of_further.
Qed.

End More.

Lemma dict_update_fresh `{RT : Runtime} (l d : list (factref * binding)) :
  Forall (fun kv => hashable kv.1 = true) l → NoDup (d ++ l).*1 →
  dict_update d ((fun kv => ISlot kv.1 kv.2) <$> l) = Ret (d ++ l).
Proof.
  revert d. induction l as [|[k v] l IH]; intros d Hh Hnd.
  - simpl. by rewrite app_nil_r.
  - apply Forall_cons in Hh as [Hk Hh]. rewrite fmap_cons.
    cbn [dict_update item_kv fst snd]. simpl in Hk. rewrite Hk.
    rewrite dict_set_fresh.
    + rewrite IH; [by rewrite <- app_assoc|done|by rewrite <- app_assoc].
    + rewrite fmap_app, fmap_cons in Hnd.
      apply NoDup_app in Hnd as (_ & Hdis & _).
      intros Hin. apply (Hdis _ Hin). apply list_elem_of_here.
Qed.

Lemma contexts_dict_NoDup `{RT : Runtime} (act : Activation) :
  Forall (fun kv => hashable kv.1 = true) (contexts act) →
  NoDup (contexts act).*1 →
  contexts_dict act = Ret (contexts act).
Proof.
  intros Hh Hnd. unfold contexts_dict, py_dict.
  by rewrite dict_update_fresh.
Qed.

(** X13. A rule with a function recorded, called with an activation whose
    bindings can be passed on and whose contexts name each fact once, calls
    that function with the positional arguments it was given.  A keyword
    that no context of the activation binds keeps the caller's value; a
    keyword bound in the context of some fact takes the value from the last
    such fact in [activation.facts], whatever the caller passed. *)
Theorem Rule_call_bindings `{RT : Runtime} f conds sal fst args act kwargs :
  well_bound act → NoDup (contexts act).*1 →
  ∃ kwargs',
    Rule_call (mkRule (Some f) conds sal) fst args (Some act) kwargs =
      (Ret (Calls f (match fst with None => [] | Some x => [x] end ++ args)
                  kwargs'), mkRule (Some f) conds sal) ∧
    (∀ x : string,
       (∀ fact c, fact ∈ facts act → (fact, BCtx c) ∈ contexts act →
                  c !! x = None) →
       kwargs' !! x = kwargs !! x) ∧
    (∀ before fact after c (x : string) v,
       facts act = before ++ fact :: after →
       (fact, BCtx c) ∈ contexts act →
       c !! x = Some v →
       (∀ fact' c', fact' ∈ after → (fact', BCtx c') ∈ contexts act →
                    c' !! x = None) →
       kwargs' !! x = Some v).
Proof.
  intros Hw Hnd.
  destruct (receive_activation_ok (Some act) kwargs) as [kw Hkw].
  { by intros ? [= <-]. }
  exists kw. unfold Rule_call. rewrite Hkw. split; [done|].
  destruct Hw as [Hf Hc]. simpl in Hkw.
  rewrite contexts_dict_NoDup in Hkw; [|by eapply Forall_impl; [exact Hc|];
                                         intros ? [? _]|done].
  simpl in Hkw. split.
  - intros x Hno. eapply merge_contexts_keeps; [exact Hkw|].
    intros fact c Hin Hget. eapply Hno; [done|]. by apply dict_get_elem.
  - intros before fact after c x v Hfs Hin Hx Hafter.
    rewrite Hfs, merge_contexts_app in Hkw.
    destruct (merge_contexts (contexts act) before kwargs) as [kw1|];
      [simpl in Hkw|done].
    apply (dict_get_elem _ _ _ Hnd) in Hin.
    destruct (hashable fact); [|done]. rewrite Hin in Hkw. simpl in Hkw.
    rewrite (merge_contexts_keeps _ _ _ _ x Hkw).
    + by apply lookup_union_Some_l.
    + intros fact' c' Hin' Hget. eapply Hafter; [done|].
      by apply dict_get_elem.
Qed.

(** *** The life of the recorded function *)

Lemma Rule_calls_bound `{RT : Runtime} self g calls :
  __fn self = Some g →
  Rule_calls self calls = (passes_on g <$> calls, self).
Proof.
  intros Hg. induction calls as [|c calls IH]; [done|].
  cbn [Rule_calls].
  assert (Rule_call self (c_fst c) (c_args c) (c_activation c) (c_kwargs c)
          = (passes_on g c, self)) as ->.
  { unfold Rule_call, passes_on. rewrite Hg.
    by destruct (receive_activation _ _). }
  cbn [fst snd]. by rewrite IH.
Qed.

(** X14. On a rule that holds no function, the first call that carries a
    first argument [f] (and bindings that can be passed on, if any) returns
    the rule.  The rule then holds [f] and keeps its conditions and its
    salience, unless [f] is itself a rule object: the rule then takes over
    the function, the conditions and the salience of [f], and holds no
    function when [f] holds none.  Once the rule holds a function [g], no
    later call changes any of its attributes: every later call raises the
    exception of its bindings or calls [g], and a first argument is passed
    on to [g] instead of being recorded. *)
Theorem Rule_calls_keep_function `{RT : Runtime} self c f calls :
  __fn self = None → c_fst c = Some f →
  (∀ act, c_activation c = Some act → well_bound act) →
  let self' := match f with
               | ORule fn conds sal => mkRule fn conds sal
               | _ => mkRule (Some f) (__conds self) (salience self)
               end in
  Rule_calls self [c] = ([Ret ReturnsSelf], self') ∧
  ∀ g, __fn self' = Some g →
    Rule_calls self (c :: calls) =
      (Ret ReturnsSelf :: (passes_on g <$> calls), self').
Proof.
  intros Hfn Hfst Hw self'.
  assert (Rule_call self (c_fst c) (c_args c) (c_activation c) (c_kwargs c)
          = (Ret ReturnsSelf, self')) as Hc.
  { unfold Rule_call. rewrite Hfn, Hfst.
    destruct (receive_activation_ok _ (c_kwargs c) Hw) as [kw ->].
    subst self'. by destruct f. }
  split.
  - cbn [Rule_calls]. by rewrite Hc.
  - intros g Hg. cbn [Rule_calls]. rewrite Hc. cbn [fst snd].
    by rewrite (Rule_calls_bound self' g calls Hg).
Qed.

(** *** A pattern wrapped in a conjunction *)

Lemma fmap_Permutation_inv {A B} (f : A → B) (l : list B) (k : list A) :
  l ≡ₚ f <$> k → ∃ k', l = f <$> k' ∧ k' ≡ₚ k.
Proof.
  intros (k' & -> & Hk')%(Permutation_map_inv f).
  exists k'. split; [done|by symmetry].
Qed.

Lemma product_singletons {A} (l : list A) :
  product ((fun x => [x]) <$> l) = [l].
Proof.
  induction l as [|x l IH]; [done|]. rewrite fmap_cons. cbn [product].
  by rewrite IH.
Qed.

Lemma join_singletons {A} (l : list A) :
  mjoin ((fun x => [x]) <$> l) = l.
Proof. induction l as [|x l IH]; [done|]. simpl. by f_equal. Qed.

Lemma merge_sort_Permutation_eq (l k : list Z) :
  l ≡ₚ k → merge_sort Z.le l = merge_sort Z.le k.
Proof.
  intros Hlk.
  assert (Total Z.le) by (intros x y; lia).
  apply (Sorted_unique Z.le); [by apply Sorted_merge_sort..|].
  etrans; [apply merge_sort_Permutation|].
  etrans; [exact Hlk|]. symmetry. apply merge_sort_Permutation.
Qed.

Section Nested.
Context `{RT : Runtime} `{!RuntimeLaws RT}.

Lemma acts_slots_singles id (pairs : list (Z * Context)) :
  acts_slots ((fun p => single_activation id p.1 p.2) <$> pairs) =
  Ret ((fun p => [ISlot (RId p.1) (BCtx p.2)]) <$> pairs).
Proof.
  induction pairs as [|[i c] pairs IH]; [done|].
  rewrite !fmap_cons. cbn [acts_slots]. rewrite IH.
  unfold single_activation. cbn [facts fact_slots fst snd].
  unfold contexts_dict, py_dict, py_get. simpl.
  rewrite !hashable_id. simpl. by rewrite decide_True.
Qed.

Lemma singles_NoDup id (pairs : list (Z * Context)) :
  NoDup pairs.*1 → NoDup ((fun p => single_activation id p.1 p.2) <$> pairs).
Proof.
  intros Hnd. apply NoDup_fmap_2_strong; [|by eapply NoDup_fmap_1].
  intros [i c] [j d] _ _ H. unfold single_activation in H. by simplify_eq/=.
Qed.

(** X8. Wrapping a pattern in an [AND] changes what the enclosing
    conjunction returns: where the pattern matches the distinct facts of
    [pairs], the conjunction of the wrapped pattern returns a single
    activation holding all these facts at once (with all their contexts),
    not one activation per fact. *)
Theorem Rule_wrapped_pattern (m : matches_fn) self cls sal id icls isal P
    (pairs : list (Z * Context)) s :
  cls = KRule ∨ cls = KAND →
  icls = KRule ∨ icls = KAND →
  m (Some id) P (Some id) = (fun p => EPair p.1 p.2) <$> pairs →
  NoDup pairs.*1 → pairs ≠ [] →
  ∃ a s',
    get_activations (FactList m)
      (Node self cls [Node id icls [Pattern P] isal] sal) s = (Ret [a], s') ∧
    rule a = self ∧
    facts a = RId <$> merge_sort Z.le pairs.*1 ∧
    contexts a ≡ₚ (fun p => (RId p.1, BCtx p.2)) <$> pairs.
Proof.
  intros Hcls Hicls Hm Hnd Hne.
  set (s1 := mkState (Some self) (trace s ++ [EvGetActivations self])).
  destruct (Rule_single_pattern_eval m id icls isal P pairs s1 Hicls Hm)
    as [s2 Hinner].
  destruct (fmap_Permutation_inv (fun p => single_activation id p.1 p.2)
              (tuple_of_set ((fun p => single_activation id p.1 p.2) <$> pairs))
              pairs) as (pairs' & Hacts & Hperm).
  { apply tuple_of_set_NoDup. by apply singles_NoDup. }
  rewrite Hacts in Hinner.
  assert (pairs' ≠ []) as Hne'.
  { intros ->. apply Permutation_nil_l in Hperm. by subst. }
  assert (NoDup pairs'.*1) as Hnd' by by rewrite Hperm.
  set (ctxs := (fun p : Z * Context => (RId p.1, BCtx p.2)) <$> pairs').
  set (a := mkActivation self (RId <$> merge_sort Z.le pairs.*1) ctxs).
  assert (tuple_activation self
            (mjoin ((fun p : Z * Context => [ISlot (RId p.1) (BCtx p.2)])
                      <$> pairs')) = Ret (Some a)) as Ht.
  { assert (mjoin ((fun p : Z * Context => [ISlot (RId p.1) (BCtx p.2)])
                     <$> pairs') = (fun kv => ISlot kv.1 kv.2) <$> ctxs) as ->.
    { unfold ctxs. clear. induction pairs' as [|p l IH]; [done|].
      rewrite !fmap_cons. cbn [mjoin list_join app fst snd]. by f_equal. }
    assert (ctxs.*1 = RId <$> pairs'.*1) as Hkeys.
    { unfold ctxs. rewrite <- !list_fmap_compose. done. }
    unfold tuple_activation, py_dict. rewrite dict_update_fresh.
    - simpl. rewrite Hkeys, py_sorted_ids.
      rewrite (merge_sort_Permutation_eq pairs'.*1 pairs.*1) by by rewrite Hperm.
      simpl. destruct (RId <$> merge_sort Z.le pairs.*1) eqn:E; [|done].
      apply fmap_nil_inv in E.
      pose proof (merge_sort_Permutation Z.le pairs.*1) as Hp.
      rewrite E in Hp. apply Permutation_nil_l in Hp.
      symmetry in Hp. apply fmap_nil_inv in Hp. done.
    - unfold ctxs. apply Forall_fmap, Forall_forall. intros p _. simpl.
      apply hashable_id.
    - simpl. rewrite Hkeys. by apply (NoDup_fmap_2 RId). }
  assert (Rule_get_activations (get_activations (FactList m)) (FactList m)
            self [Node id icls [Pattern P] isal] s =
          (Ret (tuple_of_set [a]), s2)) as Hout.
  { unfold Rule_get_activations, _activations, bind at 1 2 3, log. simpl.
    unfold bind at 1, set_fl_rule. simpl. unfold bind at 1.
    unfold s1 in Hinner. cbn [get_activations] in Hinner. rewrite Hinner.
    destruct ((fun p : Z * Context => single_activation id p.1 p.2) <$> pairs')
      as [|a0 acts0] eqn:E; [by apply fmap_nil_inv in E|]. rewrite <- E.
    unfold bind, lift, ret. rewrite acts_slots_singles. simpl.
    assert (((fun p : Z * Context => [ISlot (RId p.1) (BCtx p.2)]) <$> pairs')
            = (fun x => [x]) <$>
                ((fun p : Z * Context => ISlot (RId p.1) (BCtx p.2)) <$> pairs'))
      as Hsl by by rewrite <- list_fmap_compose.
    rewrite Hsl in Ht |- *. rewrite product_singletons. simpl.
    rewrite join_singletons in Ht. by rewrite Ht. }
  assert (tuple_of_set [a] = [a]) as Hset.
  { apply Permutation_singleton_r. rewrite tuple_of_set_perm.
    cbn [remove_dups]. by destruct (decide_rel _ _ _) as [?%elem_of_nil|]. }
  rewrite Hset in Hout. exists a, s2.
  split; [by destruct Hcls as [-> | ->]|].
  split; [done|]. split; [done|].
  simpl. unfold ctxs. by rewrite Hperm.
Qed.


(** *** A negation inside a conjunction *)

Lemma tuple_activation_anchor self i0 c0 i c :
  tuple_activation self [ISlot (RId i0) (BCtx c0); IEntry (EPair i c)] =
  Ret (Some (pair_activation self i0 c0 i c)).
Proof.
  unfold tuple_activation, py_dict, pair_activation. simpl.
  rewrite !hashable_id. simpl.
  destruct (decide (i0 = i)) as [->|Hne].
  - rewrite decide_True by done. simpl. by rewrite py_sorted_one.
  - rewrite decide_False by congruence. simpl. by rewrite py_sorted_two.
Qed.

Lemma tuples_activations_anchor self i0 c0 (pairs : list (Z * Context)) :
  tuples_activations self
    ((fun t => ISlot (RId i0) (BCtx c0) :: t) <$>
       ((fun x => [x]) <$> (IEntry <$> ((fun p => EPair p.1 p.2) <$> pairs)))) =
  Ret ((fun p => pair_activation self i0 c0 p.1 p.2) <$> pairs).
Proof.
  induction pairs as [|[i c] pairs IH]; [done|].
  rewrite !fmap_cons. cbn [tuples_activations].
  rewrite tuple_activation_anchor, IH. done.
Qed.

(** X9. In the conjunction of [NOT(P)] and the pattern [Q], when [P] matches
    a fact the rule returns no activation, and [Q] is not even matched. *)
Theorem Rule_blocked_by_negation (m : matches_fn) self cls sal nid nsal P Q
    (pairs : list (Z * Context)) s :
  cls = KRule ∨ cls = KAND →
  m (Some nid) P (Some nid) = (fun p => EPair p.1 p.2) <$> pairs →
  pairs ≠ [] →
  get_activations (FactList m)
    (Node self cls [Node nid KNOT [Pattern P] nsal; Pattern Q] sal) s =
  (Ret [], mkState (Some nid)
             (trace s ++ [EvGetActivations self; EvGetActivations nid;
                          EvMatches (Some nid) P (Some nid)])).
Proof.
  intros Hcls Hm Hne.
  set (s1 := mkState (Some self) (trace s ++ [EvGetActivations self])).
  destruct (Rule_single_pattern_eval m nid KAND nsal P pairs s1
              (or_intror eq_refl) Hm) as [s2 Hinner].
  assert (s2 = mkState (Some nid)
                 (trace s ++ [EvGetActivations self; EvGetActivations nid;
                              EvMatches (Some nid) P (Some nid)])) as Hs2.
  { cbn [get_activations] in Hinner.
    unfold Rule_get_activations, _activations in Hinner. simpl in Hinner.
    unfold bind, log, set_fl_rule, call_matches, ret, lift in Hinner.
    simpl in Hinner. rewrite <- !app_assoc in Hinner. simpl in Hinner.
    destruct (m (Some nid) P (Some nid)); simpl in Hinner.
    - by inversion Hinner.
    - match type of Hinner with
      | match ?x with _ => _ end = _ => destruct x
      end; by inversion Hinner. }
  destruct (tuple_of_set ((fun p => single_activation nid p.1 p.2) <$> pairs))
    as [|a0 acts0] eqn:Hset.
  { destruct pairs as [|[i c] pairs]; [done|].
    assert (single_activation nid i c ∈
              tuple_of_set ((fun p => single_activation nid p.1 p.2)
                              <$> (i, c) :: pairs)) as Hin.
    { apply elem_of_tuple_of_set. rewrite fmap_cons. apply list_elem_of_here. }
    rewrite Hset in Hin. by apply elem_of_nil in Hin. }
  assert (Rule_get_activations (get_activations (FactList m)) (FactList m)
            self [Node nid KNOT [Pattern P] nsal; Pattern Q] s =
          (Ret [], s2)) as H.
  { unfold Rule_get_activations, _activations, bind at 1 2 3, log.
    cbn [is_FactList Rule_loop fl_rule trace]. unfold bind at 1, set_fl_rule.
    cbn [fl_rule trace]. unfold bind at 1. fold s1.
    cbn [get_activations] in Hinner |- *.
    unfold NOT_get_activations, bind at 1. rewrite Hinner.
    unfold ret. by rewrite tuple_of_set_nil. }
  rewrite Hs2 in H. by destruct Hcls as [-> | ->].
Qed.

(** X10. In the conjunction of [NOT(P)] and the pattern [Q], when [P] matches
    nothing and the store's first match for [InitialFact] is [(i0, c0)],
    the rule returns one activation per match of [Q], and each also holds
    the fact [i0] and its context: the anchor of the negation. *)
Theorem Rule_negation_anchor (m : matches_fn) self cls sal nid nsal P Q
    i0 c0 rest (pairs : list (Z * Context)) s :
  cls = KRule ∨ cls = KAND →
  m (Some nid) P (Some nid) = [] →
  m (Some nid) InitialFact None = EPair i0 c0 :: rest →
  m (Some self) Q (Some self) = (fun p => EPair p.1 p.2) <$> pairs →
  ∃ acts s',
    get_activations (FactList m)
      (Node self cls [Node nid KNOT [Pattern P] nsal; Pattern Q] sal) s
      = (Ret acts, s') ∧
    NoDup acts ∧
    ∀ a, a ∈ acts ↔ ∃ idx context,
           (idx, context) ∈ pairs ∧ a = pair_activation self i0 c0 idx context.
Proof.
  intros Hcls HP HI HQ.
  assert (∃ s', Rule_get_activations (get_activations (FactList m))
            (FactList m) self [Node nid KNOT [Pattern P] nsal; Pattern Q] s =
          (Ret (tuple_of_set
                  ((fun p => pair_activation self i0 c0 p.1 p.2) <$> pairs)),
           s')) as [s' Hs'].
  { unfold Rule_get_activations, _activations. simpl.
    unfold NOT_get_activations, Rule_get_activations, _activations. simpl.
    run. simpl. rewrite HP. simpl. rewrite tuple_of_set_nil. simpl.
    rewrite HI. simpl. unfold contexts_dict, py_dict, py_get. simpl.
    rewrite !hashable_id. simpl.
    destruct (decide (RId i0 = RId i0)); [|done]. simpl.
    rewrite HQ.
    destruct ((fun p : Z * Context => EPair p.1 p.2) <$> pairs) as [|e0 es] eqn:E.
    { apply fmap_nil_inv in E as ->. by eexists. }
    rewrite <- E.
    change (product [[ISlot (RId i0) (BCtx c0)];
                     IEntry <$> ((fun p : Z * Context => EPair p.1 p.2) <$> pairs)])
      with ([ISlot (RId i0) (BCtx c0)] ≫= fun x =>
              (fun t => x :: t) <$>
                product [IEntry <$> ((fun p : Z * Context => EPair p.1 p.2) <$> pairs)]).
    rewrite bind_singleton, product_singleton_list, tuples_activations_anchor.
    by eexists. }
  exists (tuple_of_set ((fun p => pair_activation self i0 c0 p.1 p.2) <$> pairs)), s'.
  split; [by destruct Hcls as [-> | ->]|].
  split; [apply NoDup_tuple_of_set|].
  intros a. rewrite elem_of_tuple_of_set, list_elem_of_fmap. split.
  - intros ([i c] & -> & Hin). eauto.
  - intros (i & c & Hin & ->). by exists (i, c).
Qed.


(** *** Two patterns, any number of matches *)

Lemma tuples_activations_app self ts1 ts2 ys1 ys2 :
  tuples_activations self ts1 = Ret ys1 →
  tuples_activations self ts2 = Ret ys2 →
  tuples_activations self (ts1 ++ ts2) = Ret (ys1 ++ ys2).
Proof.
  revert ys1. induction ts1 as [|t ts1 IH]; intros ys1; simpl.
  - by intros [= <-].
  - destruct (tuple_activation self t) as [oa|]; [simpl|done].
    destruct (tuples_activations self ts1) as [ys|]; [simpl|done].
    intros [= <-] H2. rewrite (IH ys eq_refl H2). simpl. by destruct oa.
Qed.

Lemma tuples_activations_row self x cx (pairs : list (Z * Context)) :
  tuples_activations self
    ((fun t => IEntry (EPair x cx) :: t) <$>
       ((fun e => [e]) <$> (IEntry <$> ((fun p => EPair p.1 p.2) <$> pairs)))) =
  Ret ((fun p => pair_activation self x cx p.1 p.2) <$> pairs).
Proof.
  induction pairs as [|[y cy] pairs IH]; [done|].
  rewrite !fmap_cons. cbn [tuples_activations].
  rewrite tuple_activation_pair, IH. done.
Qed.

Lemma tuples_activations_grid self (pairs1 pairs2 : list (Z * Context)) :
  tuples_activations self
    (product [IEntry <$> ((fun p => EPair p.1 p.2) <$> pairs1);
              IEntry <$> ((fun p => EPair p.1 p.2) <$> pairs2)]) =
  Ret (p ← pairs1;
       (fun q => pair_activation self p.1 p.2 q.1 q.2) <$> pairs2).
Proof.
  cbn [product]. fold (product [IEntry <$> ((fun p : Z * Context => EPair p.1 p.2) <$> pairs2)]).
  rewrite product_singleton_list.
  induction pairs1 as [|[x cx] pairs1 IH]; [done|].
  rewrite !fmap_cons, !bind_cons.
  apply tuples_activations_app; [apply tuples_activations_row|apply IH].
Qed.

(** X7. The conjunction of two patterns returns exactly the activations of
    all selections of one match of the first and one match of the second,
    however many matches each has (none, if either has none). *)
Theorem Rule_two_patterns (m : matches_fn) self cls sal P1 P2
    (pairs1 pairs2 : list (Z * Context)) s :
  cls = KRule ∨ cls = KAND →
  m (Some self) P1 (Some self) = (fun p => EPair p.1 p.2) <$> pairs1 →
  m (Some self) P2 (Some self) = (fun p => EPair p.1 p.2) <$> pairs2 →
  ∃ acts s',
    get_activations (FactList m) (Node self cls [Pattern P1; Pattern P2] sal) s
      = (Ret acts, s') ∧
    NoDup acts ∧
    ∀ a, a ∈ acts ↔ ∃ x cx y cy,
           (x, cx) ∈ pairs1 ∧ (y, cy) ∈ pairs2 ∧
           a = pair_activation self x cx y cy.
Proof.
  intros Hcls H1 H2.
  set (grid := p ← pairs1;
               (fun q => pair_activation self p.1 p.2 q.1 q.2) <$> pairs2).
  assert (∀ a, a ∈ grid ↔ ∃ x cx y cy,
            (x, cx) ∈ pairs1 ∧ (y, cy) ∈ pairs2 ∧
            a = pair_activation self x cx y cy) as Hgrid.
  { intros a. unfold grid. rewrite list_elem_of_bind. split.
    - intros ([x cx] & Ha & Hp). apply list_elem_of_fmap in Ha as ([y cy] & -> & Hq).
      by exists x, cx, y, cy.
    - intros (x & cx & y & cy & Hp & Hq & ->). exists (x, cx). split; [|done].
      apply list_elem_of_fmap. by exists (y, cy). }
  assert (∃ ys s', Rule_get_activations (get_activations (FactList m))
            (FactList m) self [Pattern P1; Pattern P2] s =
          (Ret (tuple_of_set ys), s') ∧ ∀ a, a ∈ ys ↔ a ∈ grid)
    as (ys & s' & Hs' & Hys).
  { unfold Rule_get_activations, _activations, bind at 1 2 3, log.
    cbn [is_FactList].
    change [Pattern P1; Pattern P2] with (Pattern <$> [P1; P2]).
    edestruct (Rule_loop_patterns (get_activations (FactList m)) m self
                 [P1; P2] []) as [s' ->].
    destruct (decide (Forall _ [P1; P2])) as [Hall|Hnot].
    - cbn [fmap list_fmap app]. rewrite H1, H2.
      unfold lift, ret. rewrite tuples_activations_grid.
      exists grid. eexists. done.
    - exists []. eexists. split; [done|]. intros a.
      split; [by intros ?%elem_of_nil|]. intros Ha. destruct Hnot.
      apply Hgrid in Ha as (x & cx & y & cy & Hp & Hq & _).
      repeat constructor.
      + rewrite H1. intros Hnil%fmap_nil_inv. subst.
        by apply elem_of_nil in Hp.
      + rewrite H2. intros Hnil%fmap_nil_inv. subst.
        by apply elem_of_nil in Hq. }
  exists (tuple_of_set ys), s'. split; [by destruct Hcls as [-> | ->]|].
  split; [apply NoDup_tuple_of_set|].
  intros a. by rewrite elem_of_tuple_of_set, Hys, Hgrid.
Qed.

End Nested.

(** ** The reference runtime obeys the laws *)

Lemma as_ids_RId (ids : list Z) : as_ids (RId <$> ids) = Some ids.
Proof.
  unfold as_ids. induction ids as [|i ids IH]; [reflexivity|].
  cbn. cbn in IH. rewrite IH. reflexivity.
Defined.

Lemma reference_runtime_laws : RuntimeLaws reference_runtime.
Proof.
  split.
  - reflexivity.
  - intros ids. simpl. unfold ref_sorted. rewrite as_ids_RId. reflexivity.
  - intros l. reflexivity.
Defined.

#[export] Existing Instance reference_runtime.
#[export] Existing Instance reference_runtime_laws.

(** ** The theorems at work on the example memory *)

Lemma C1_witness :
  ∃ acts s',
    get_activations example_store (Node 7 KAND [Pattern red; Pattern blue] 0) s0
      = (Ret acts, s') ∧
    acts ≡ₚ [mkActivation 7 [RId 1; RId 3]
               [(RId 1, BCtx (bound "x" 1)); (RId 3, BCtx (bound "y" 3))];
             mkActivation 7 [RId 1; RId 4]
               [(RId 1, BCtx (bound "x" 1)); (RId 4, BCtx (bound "y" 4))];
             mkActivation 7 [RId 2; RId 3]
               [(RId 2, BCtx (bound "x" 2)); (RId 3, BCtx (bound "y" 3))];
             mkActivation 7 [RId 2; RId 4]
               [(RId 2, BCtx (bound "x" 2)); (RId 4, BCtx (bound "y" 4))]] ∧
    NoDup acts.
Proof.
  apply (C1_and_cartesian_product example_matches 7 KAND 0 red blue
           1 (bound "x" 1) 2 (bound "x" 2) 3 (bound "y" 3) 4 (bound "y" 4) s0).
  - by right.
  - lia.
  - lia.
  - reflexivity.
  - reflexivity.
Defined.

(** C2, counterexample: the conjunction of [AND(red)] and [blue] has two
    children, yet its loop builds three candidate lists, the composite child
    giving one for fact 1 and one for fact 2; every tuple of the product
    therefore takes both of the child's pairs, and the activations hold the
    facts (1, 2, 3) and (1, 2, 4) instead of one fact of each child. *)
Lemma C2_counterexample :
  Rule_loop (get_activations example_store) example_store 7
      [Node 8 KAND [Pattern red] 0; Pattern blue] [] s0 =
    (Ret (Some [[ISlot (RId 1) (BCtx (bound "x" 1))];
                [ISlot (RId 2) (BCtx (bound "x" 2))];
                [IEntry (EPair 3 (bound "y" 3)); IEntry (EPair 4 (bound "y" 4))]]),
     mkState (Some 7%nat)
       [EvGetActivations 8; EvMatches (Some 8%nat) red (Some 8%nat);
        EvMatches (Some 7%nat) blue (Some 7%nat)]) ∧
  (get_activations example_store
     (Node 7 KAND [Node 8 KAND [Pattern red] 0; Pattern blue] 0) s0).1 =
    Ret [mkActivation 7 [RId 1; RId 2; RId 3]
           [(RId 1, BCtx (bound "x" 1)); (RId 2, BCtx (bound "x" 2));
            (RId 3, BCtx (bound "y" 3))];
         mkActivation 7 [RId 1; RId 2; RId 4]
           [(RId 1, BCtx (bound "x" 1)); (RId 2, BCtx (bound "x" 2));
            (RId 4, BCtx (bound "y" 4))]].
Proof. split; reflexivity. Qed.

Lemma C2_witness :
  let acts := [mkActivation 8 [RId 1] [(RId 1, BCtx (bound "x" 1))];
               mkActivation 8 [RId 2] [(RId 2, BCtx (bound "x" 2))]] in
  let slots := [[ISlot (RId 1) (BCtx (bound "x" 1))];
                [ISlot (RId 2) (BCtx (bound "x" 2))]] in
  let s1 := mkState (Some 8%nat)
              [EvGetActivations 8; EvMatches (Some 8%nat) red (Some 8%nat)] in
  Rule_loop (get_activations example_store) example_store 7
      (Node 8 KAND [Pattern red] 0 :: [Pattern blue]) [] s0 =
    Rule_loop (get_activations example_store) example_store 7
      [Pattern blue] ([] ++ slots) s1 ∧
  Forall2 (fun d fact => ∃ context, d = [ISlot fact context])
          slots (mjoin (facts <$> acts)) ∧
  ∀ post t, t ∈ product ([] ++ slots ++ post) →
    ∃ t1 t2, t = t1 ++ mjoin slots ++ t2 ∧ t1 ∈ product [] ∧ t2 ∈ product post.
Proof.
  intros acts slots s1.
  apply (C2_composite_child_dimensions example_store 7 8 KAND [Pattern red] 0
           [Pattern blue] [] s0 acts s1 slots).
  - reflexivity.
  - discriminate.
  - reflexivity.
Defined.

Lemma C4_witness :
  get_activations example_store (Node 7 KNOT [Pattern green] 0) s0 =
    (Ret [mkActivation 7 [RId 0] [(RId 0, BCtx ∅)]],
     mkState (Some 7%nat)
       [EvGetActivations 7; EvMatches (Some 7%nat) green (Some 7%nat);
        EvMatches (Some 7%nat) InitialFact None]) ∧
  get_activations example_store (Node 7 KNOT [Pattern red] 0) s0 =
    (Ret [], mkState (Some 7%nat)
               [EvGetActivations 7; EvMatches (Some 7%nat) red (Some 7%nat)]).
Proof.
  split.
  - refine (proj1 (proj2 (C4_not_negation example_matches 7 [Pattern green] 0 s0
             [] (mkState (Some 7%nat)
                   [EvGetActivations 7; EvMatches (Some 7%nat) green (Some 7%nat)])
             _)) eq_refl 0 ∅ [] _); reflexivity.
  - refine (proj1 (C4_not_negation example_matches 7 [Pattern red] 0 s0
             [mkActivation 7 [RId 1] [(RId 1, BCtx (bound "x" 1))];
              mkActivation 7 [RId 2] [(RId 2, BCtx (bound "x" 2))]]
             (mkState (Some 7%nat)
                [EvGetActivations 7; EvMatches (Some 7%nat) red (Some 7%nat)])
             _) _); [reflexivity | discriminate].
Defined.

Lemma C5_witness :
  get_activations example_store
    (Node 7 KAND ([Pattern red] ++ Pattern green :: [Pattern blue]) 0) s0 =
  (Ret [], mkState (Some 7%nat)
             [EvGetActivations 7; EvMatches (Some 7%nat) red (Some 7%nat);
              EvMatches (Some 7%nat) green (Some 7%nat)]).
Proof.
  apply (C5_conjunction_short_circuit example_matches 7 KAND 0
           [Pattern red] (Pattern green) [Pattern blue] s0
           [[IEntry (EPair 1 (bound "x" 1)); IEntry (EPair 2 (bound "x" 2))]]
           (mkState (Some 7%nat)
              [EvGetActivations 7; EvMatches (Some 7%nat) red (Some 7%nat)])).
  - by right.
  - reflexivity.
  - reflexivity.
Defined.

(** C6, counterexample: [red] matches the facts 1 and 2 and the store
    answers [odd] with a triple.  The selection of fact 1 and the triple does
    not yield an activation carrying the bindings of fact 1: it yields none,
    and the conjunction returns no activation at all. *)
Lemma C6_counterexample :
  tuple_activation 7 [IEntry (EPair 1 (bound "x" 1)); IEntry (ESeq [7; 8; 9])]
    = Ret None ∧
  (get_activations example_store (Node 7 KAND [Pattern red; Pattern odd] 0) s0).1
    = Ret [].
Proof. split; reflexivity. Qed.

Lemma C6_witness :
  let t := [IEntry (EPair 1 (bound "x" 1)); IEntry (ESeq [7; 8; 9])] in
  let ts := [[IEntry (EPair 2 (bound "x" 2))]] in
  py_dict t = Raise ValueError ∧
  tuple_activation 7 t = Ret None ∧
  tuples_activations 7 (t :: ts) = tuples_activations 7 ts.
Proof.
  intros t ts. apply (C6_malformed_tuple_yields_nothing 7 t ts).
  - repeat constructor; intros k v [= <- <-]; reflexivity.
  - right. left. reflexivity.
Defined.



(** A rule decorated with a rule that holds no function still holds none,
    has taken the conditions and the salience of that rule, and records the
    next first argument. *)
Example decorated_with_unbound_rule :
  Rule_calls (mkRule None [Pattern red] 0)
    [mkCall (Some (ORule None [Pattern blue] 5)) [] None ∅;
     mkCall (Some (OFn "action")) [] None ∅] =
  ([Ret ReturnsSelf; Ret ReturnsSelf],
   mkRule (Some (OFn "action")) [Pattern blue] 5).
Proof. reflexivity. Qed.

(** The generator yields the activation on fact 5 twice, once per tuple. *)
Example twin_yielded_twice :
  (_activations (get_activations example_store) example_store 7 [Pattern twin]
     (mkState None [EvGetActivations 7])).1 =
  Ret [mkActivation 7 [RId 5] [(RId 5, BCtx ∅)];
       mkActivation 7 [RId 5] [(RId 5, BCtx ∅)]].
Proof. reflexivity. Qed.

Lemma C9_witness :
  let s' := mkState (Some 7%nat)
              [EvGetActivations 7; EvMatches (Some 7%nat) twin (Some 7%nat)] in
  let acts := [mkActivation 7 [RId 5] [(RId 5, BCtx ∅)]] in
  NoDup acts ∧
  ∀ id cls conds sal,
    Node 7 KAND [Pattern twin] 0 = Node id cls conds sal →
    cls = KRule ∨ cls = KAND →
    ∃ yielded,
      _activations (get_activations example_store) example_store id conds
        (mkState (fl_rule s0) (trace s0 ++ [EvGetActivations id]))
        = (Ret yielded, s') ∧
      ∀ a, a ∈ acts ↔ a ∈ yielded.
Proof.
  intros s' acts.
  apply (C9_activations_deduplicated example_store
           (Node 7 KAND [Pattern twin] 0) s0 acts s').
  reflexivity.
Defined.

Lemma C10_witness :
  (get_activations example_store
     (Node 7 KOR (Node 8 KAND [Pattern green] 0 :: [Pattern red]) 0) s0).1
  = Ret [].
Proof.
  apply C10_or_first_child_empty. intros s1. reflexivity.
Defined.

(** ** The further properties at work on the example memory *)

Lemma X1_witness :
  rule (mkActivation 7 [RId 0] [(RId 0, BCtx ∅)]) = 7%nat ∧
  facts (mkActivation 7 [RId 0] [(RId 0, BCtx ∅)]) ≠ [].
Proof.
  apply (activations_attributed example_store 7 KNOT [Pattern green] 0 s0
           [mkActivation 7 [RId 0] [(RId 0, BCtx ∅)]]
           (mkState (Some 7%nat)
              [EvGetActivations 7; EvMatches (Some 7%nat) green (Some 7%nat);
               EvMatches (Some 7%nat) InitialFact None])).
  - reflexivity.
  - apply list_elem_of_here.
Defined.

Lemma X2_witness :
  get_activations (Foreign None) (Node 7 KNOT [Pattern red] 0) s0 =
  (Raise ValueError, mkState (fl_rule s0) (trace s0 ++ [EvGetActivations 7])).
Proof.
  apply Rule_rejects_non_FactList.
  - reflexivity.
  - discriminate.
Defined.

Lemma X3_witness :
  (get_activations example_store
     (new_rule KAND 7 ([Pattern red] ++ Other :: [Pattern blue]) 0) s0).1 =
    (get_activations example_store
       (new_rule KAND 7 ([Pattern red] ++ [Pattern blue]) 0) s0).1 ∧
  trace (get_activations example_store
     (new_rule KAND 7 ([Pattern red] ++ Other :: [Pattern blue]) 0) s0).2 =
    trace (get_activations example_store
       (new_rule KAND 7 ([Pattern red] ++ [Pattern blue]) 0) s0).2.
Proof.
  apply (Rule_ignores_other_objects example_store 7 KAND 0
           [Pattern red] [Pattern blue] s0).
  - by right.
  - discriminate.
Defined.

(** With such an object as its only condition the rule returns nothing,
    while the rule built without conditions returns the activation on the
    sentinel. *)
Example sole_other_object :
  get_activations example_store (new_rule KRule 7 [Other] 0) s0 =
    (Ret [], mkState (Some 7%nat) [EvGetActivations 7]) ∧
  (get_activations example_store (new_rule KRule 7 [] 0) s0).1 =
    Ret [mkActivation 7 [RId 0] [(RId 0, BCtx ∅)]].
Proof. split; reflexivity. Qed.

Lemma X4_witness :
  ∃ acts s',
    get_activations example_store
      (Node 7 KAND (Pattern <$> [red; blue; twin]) 0) s0 = (Ret acts, s') ∧
    (length acts ≤ combinations example_matches 7 [red; blue; twin])%nat.
Proof.
  apply (Rule_patterns_bounded example_matches 7 KAND 0 [red; blue; twin] s0).
  by right.
Defined.

Lemma X5_witness :
  let a := mkActivation 7 [RId 1; RId 3]
             [(RId 1, BCtx (bound "x" 1)); (RId 3, BCtx (bound "y" 3))] in
  rule a = 7%nat ∧
  ∃ ids, (contexts a).*1 = RId <$> ids ∧ NoDup ids ∧ ids ≠ [] ∧
         facts a = RId <$> merge_sort Z.le ids ∧
         Sorted Z.le (merge_sort Z.le ids) ∧ merge_sort Z.le ids ≡ₚ ids.
Proof.
  intros a.
  apply (Rule_patterns_activation_shape example_matches 7 KAND 0 [red; blue] s0
           [a;
            mkActivation 7 [RId 1; RId 4]
              [(RId 1, BCtx (bound "x" 1)); (RId 4, BCtx (bound "y" 4))];
            mkActivation 7 [RId 2; RId 3]
              [(RId 2, BCtx (bound "x" 2)); (RId 3, BCtx (bound "y" 3))];
            mkActivation 7 [RId 2; RId 4]
              [(RId 2, BCtx (bound "x" 2)); (RId 4, BCtx (bound "y" 4))]]
           (mkState (Some 7%nat)
              [EvGetActivations 7; EvMatches (Some 7%nat) red (Some 7%nat);
               EvMatches (Some 7%nat) blue (Some 7%nat)])).
  - by right.
  - reflexivity.
  - apply list_elem_of_here.
Defined.

Lemma X6_witness :
  ∃ acts s',
    get_activations example_store (Node 7 KRule [Pattern red] 0) s0
      = (Ret acts, s') ∧
    NoDup acts ∧
    ∀ a, a ∈ acts ↔ ∃ idx context,
           (idx, context) ∈ [(1, bound "x" 1); (2, bound "x" 2)] ∧
           a = single_activation 7 idx context.
Proof.
  apply (Rule_single_pattern example_matches 7 KRule 0 red
           [(1, bound "x" 1); (2, bound "x" 2)] s0).
  - by left.
  - reflexivity.
Defined.

Lemma X7_witness :
  ∃ acts s',
    get_activations example_store
      (Node 7 KAND [Pattern blue; Pattern twin] 0) s0 = (Ret acts, s') ∧
    NoDup acts ∧
    ∀ a, a ∈ acts ↔ ∃ x cx y cy,
           (x, cx) ∈ [(3, bound "y" 3); (4, bound "y" 4)] ∧
           (y, cy) ∈ [(5, (∅ : Context)); (5, ∅)] ∧
           a = pair_activation 7 x cx y cy.
Proof.
  apply (Rule_two_patterns example_matches 7 KAND 0 blue twin
           [(3, bound "y" 3); (4, bound "y" 4)] [(5, ∅); (5, ∅)] s0).
  - by right.
  - reflexivity.
  - reflexivity.
Defined.

Lemma X8_witness :
  ∃ a s',
    get_activations example_store
      (Node 7 KAND [Node 8 KAND [Pattern red] 0] 0) s0 = (Ret [a], s') ∧
    rule a = 7%nat ∧
    facts a = RId <$> merge_sort Z.le [(1, bound "x" 1); (2, bound "x" 2)].*1 ∧
    contexts a ≡ₚ (fun p => (RId p.1, BCtx p.2))
                    <$> [(1, bound "x" 1); (2, bound "x" 2)].
Proof.
  apply (Rule_wrapped_pattern example_matches 7 KAND 0 8 KAND 0 red
           [(1, bound "x" 1); (2, bound "x" 2)] s0).
  - by right.
  - by right.
  - reflexivity.
  - apply NoDup_cons. split; [|apply NoDup_singleton].
    intros Hin. apply list_elem_of_singleton in Hin. discriminate.
  - discriminate.
Defined.

Lemma X9_witness :
  get_activations example_store
    (Node 7 KAND [Node 8 KNOT [Pattern red] 0; Pattern blue] 0) s0 =
  (Ret [], mkState (Some 8%nat)
             (trace s0 ++ [EvGetActivations 7; EvGetActivations 8;
                           EvMatches (Some 8%nat) red (Some 8%nat)])).
Proof.
  apply (Rule_blocked_by_negation example_matches 7 KAND 0 8 0 red blue
           [(1, bound "x" 1); (2, bound "x" 2)] s0).
  - by right.
  - reflexivity.
  - discriminate.
Defined.

Lemma X10_witness :
  ∃ acts s',
    get_activations example_store
      (Node 7 KAND [Node 8 KNOT [Pattern green] 0; Pattern blue] 0) s0
      = (Ret acts, s') ∧
    NoDup acts ∧
    ∀ a, a ∈ acts ↔ ∃ idx context,
           (idx, context) ∈ [(3, bound "y" 3); (4, bound "y" 4)] ∧
           a = pair_activation 7 0 ∅ idx context.
Proof.
  apply (Rule_negation_anchor example_matches 7 KAND 0 8 0 green blue
           0 ∅ [] [(3, bound "y" 3); (4, bound "y" 4)] s0).
  - by right.
  - reflexivity.
  - reflexivity.
  - reflexivity.
Defined.

Lemma X11_witness :
  get_activations example_store (new_rule KNOT 7 [] 0) s0 =
    (Ret [], mkState (Some 7%nat)
               [EvGetActivations 7;
                EvMatches (Some 7%nat) InitialFact (Some 7%nat)]) ∧
  @nil Activation = [].
Proof.
  split; [reflexivity|].
  apply (NOT_without_conditions example_matches 7 0 s0 []
           (mkState (Some 7%nat)
              [EvGetActivations 7;
               EvMatches (Some 7%nat) InitialFact (Some 7%nat)])).
  - intros marker r. reflexivity.
  - reflexivity.
Defined.

Lemma X12_witness :
  get_activations example_store (Node 7 KOR (Pattern <$> [red; green; blue]) 0) s0 =
  (Ret [mkActivation 7
          (mjoin (replicate 3 [REntry (EPair 1 (bound "x" 1));
                               REntry (EPair 3 (bound "y" 3))])) []],
   mkState None
     (trace s0 ++ EvGetActivations 7 ::
        mjoin (replicate 3
                 ((fun p => EvMatches None p (Some 7%nat))
                    <$> [red; green; blue])))).
Proof.
  apply (OR_patterns example_store example_matches 7 0 [red; green; blue] s0).
  reflexivity.
Defined.

Lemma X13_witness :
  let act := mkActivation 7 [RId 1; RId 3]
               [(RId 1, BCtx (bound "x" 1)); (RId 3, BCtx (bound "x" 3))] in
  ∃ kwargs',
    Rule_call (mkRule (Some (OFn "action")) [Pattern red] 0) None []
        (Some act) (bound "x" 0) =
      (Ret (Calls (OFn "action") ([] ++ []) kwargs'),
       mkRule (Some (OFn "action")) [Pattern red] 0) ∧
    (∀ x : string,
       (∀ fact c, fact ∈ facts act → (fact, BCtx c) ∈ contexts act →
                  c !! x = None) →
       kwargs' !! x = bound "x" 0 !! x) ∧
    (∀ before fact after c (x : string) v,
       facts act = before ++ fact :: after →
       (fact, BCtx c) ∈ contexts act →
       c !! x = Some v →
       (∀ fact' c', fact' ∈ after → (fact', BCtx c') ∈ contexts act →
                    c' !! x = None) →
       kwargs' !! x = Some v).
Proof.
  intros act.
  apply (Rule_call_bindings (OFn "action") [Pattern red] 0 None [] act
           (bound "x" 0)).
  - split.
    + repeat constructor.
    + repeat constructor; simpl; eauto.
  - apply NoDup_cons. split; [|apply NoDup_singleton].
    intros Hin. apply list_elem_of_singleton in Hin. discriminate.
Defined.

Lemma X14_witness :
  let act := mkActivation 7 [RId 1] [(RId 1, BCtx (bound "x" 1))] in
  let self := mkRule None [Pattern red] 0 in
  let c := mkCall (Some (OFn "action")) [] (Some act) ∅ in
  let calls := [mkCall (Some (OFn "other")) [OVal (VInt 5)] (Some act) ∅;
                mkCall None [] None (bound "x" 0)] in
  let self' := mkRule (Some (OFn "action")) [Pattern red] 0 in
  Rule_calls self [c] = ([Ret ReturnsSelf], self') ∧
  ∀ g, __fn self' = Some g →
    Rule_calls self (c :: calls) =
      (Ret ReturnsSelf :: (passes_on g <$> calls), self').
Proof.
  intros act self c calls self'.
  apply (Rule_calls_keep_function self c (OFn "action") calls).
  - reflexivity.
  - reflexivity.
  - intros a [= <-]. split.
    + repeat constructor.
    + repeat constructor. simpl. eauto.
Defined.
